(** * NutriVision (app.py): extraction, history, chart, report and share link

    A shallow embedding of the pure core of [src/app.py] and the properties
    of the natural-language specification checked against it.

    Python values are modelled as follows.
    - [str] is a list of Unicode code points ([N]).
    - [int] is unbounded ([N] for the values parsed from digit runs, [Z] for
      SQLite INTEGER columns).  [int()] refuses a digit string longer than the
      interpreter's limit (4300 digits unless it was set otherwise); the
      limit is a parameter of the functions that call [int()].
    - [None] is [option]'s [None]; a raised exception is [Raises] of
      [outcome], or [None] of an option result, named where it happens.
    - The Unicode character database used by [re] (decimal digits, word
      characters, simple lower-casing) is written out for U+0000..U+00FF and is
      a parameter ([UCD]) above that range, so that every general statement
      holds for whatever database the interpreter ships. *)

From Stdlib Require Import String Ascii List NArith ZArith Bool Lia.
From Stdlib Require Import Permutation Sorted.
Import ListNotations.

Set Implicit Arguments.
Local Open Scope N_scope.

(* ================================================================== *)
(** * Part I: the program *)
(* ================================================================== *)

(** ** Python strings *)

Definition char := N.
Definition pystr := list char.

(** A string literal of the source, as code points (for ASCII literals). *)
Definition py (s : string) : pystr := map N_of_ascii (list_ascii_of_string s).
Arguments py s%_string.

Definition between (lo hi c : N) : bool := (N.leb lo c) && (N.leb c hi).

Fixpoint str_eqb (a b : pystr) : bool :=
  match a, b with
  | [], [] => true
  | x :: a', y :: b' => N.eqb x y && str_eqb a' b'
  | _, _ => false
  end.

(** [v is not None] *)
Definition is_not_none (A : Type) (v : option A) : bool :=
  match v with
  | Some _ => true
  | None => false
  end.

(** [str.isspace] per character, which is also [\s] of [re] on [str]
    patterns: the complete set. *)
Definition isspace (c : char) : bool :=
  between 9 13 c || between 28 32 c || N.eqb c 133 || N.eqb c 160
  || N.eqb c 5760 || between 8192 8202 c || between 8232 8233 c
  || N.eqb c 8239 || N.eqb c 8287 || N.eqb c 12288.

(** The part of the Unicode character database above U+00FF. *)
Record UCD : Type := {
  ucd_isdecimal : char -> bool;   (* general category Nd *)
  ucd_digit : char -> N;          (* decimal value of an Nd character *)
  ucd_isalnum : char -> bool;     (* [str.isalnum] *)
  ucd_tolower : char -> char      (* simple lower-case mapping *)
}.

Section Tables.
Variable U : UCD.

Definition isdecimal (c : char) : bool :=
  if N.ltb c 256 then between 48 57 c else ucd_isdecimal U c.

Definition digit_value (c : char) : N :=
  if N.ltb c 256 then c - 48 else ucd_digit U c.

Definition isalnum (c : char) : bool :=
  if N.ltb c 256 then
    between 48 57 c || between 65 90 c || between 97 122 c
    || N.eqb c 170 || between 178 179 c || N.eqb c 181
    || between 185 186 c || between 188 190 c
    || between 192 214 c || between 216 246 c || between 248 255 c
  else ucd_isalnum U c.

Definition tolower (c : char) : char :=
  if N.ltb c 256 then
    if between 65 90 c || between 192 214 c || between 216 222 c
    then c + 32 else c
  else ucd_tolower U c.

(** The number a string of decimal characters denotes, most significant
    first. *)
Definition decimal_value (s : pystr) : N :=
  fold_left (fun acc c => 10 * acc + digit_value c) s 0.
End Tables.

(** What a call that can raise gives back. *)
Inductive outcome (A : Type) : Type :=
| Returns (a : A)
| Raises.
Arguments Returns {A} a.
Arguments Raises {A}.

(** The interpreter's limit on string-to-int conversion
    ([sys.get_int_max_str_digits()]): a string of more than 640 digits is
    counted, and refused with ValueError when the limit is not 0 and the count
    is above it.  Leading zeros count. *)
Definition DEFAULT_MAX_STR_DIGITS : nat := 4300.

Definition int_refused (limit n : nat) : bool :=
  Nat.ltb 640 n && Nat.ltb 0 limit && Nat.ltb limit n.

(** [int(s)] for a string of decimal characters. *)
Definition py_int (U : UCD) (limit : nat) (s : pystr) : outcome N :=
  if int_refused limit (length s) then Raises else Returns (decimal_value U s).

(** ** The fragment of [re] used by the extractors

    The four patterns of the source are sequences of single-character
    matchers, some of them under a greedy [+] or [*], with one capturing
    group around a greedy repetition.  The matcher below is the
    backtracking one: a greedy repetition first takes as many characters as
    it can and gives them back one at a time while the rest of the pattern
    fails. *)

Inductive category := CatDigit | CatSpace | CatWord.

Inductive setitem :=
| SChar (c : char)
| SCat (k : category).

Inductive cset :=
| Lit (c : char)                (* a cased literal, compiled under re.I *)
| Cat (k : category)            (* \d  \s  \w *)
| InSet (items : list setitem). (* [...] without cased members *)

Inductive node :=
| One (a : cset)
| Repeat (min : nat) (a : cset)        (* a* is [Repeat 0 a], a+ is [Repeat 1 a] *)
| GroupRepeat (min : nat) (a : cset).  (* the same inside group 1 *)

Definition regex := list node.

(** The extra case equivalences of the [re] compiler, for the lower-case
    letters that occur in the patterns below and their Latin-1 neighbours
    ([_EXTRA_CASES]: i and dotless i, s and long s, micro sign and mu). *)
Definition extra_cases (lo : char) : list char :=
  if N.eqb lo 105 then [305]
  else if N.eqb lo 115 then [383]
  else if N.eqb lo 181 then [956]
  else [].

Section Matcher.
Variable U : UCD.

Definition cat_match (k : category) (c : char) : bool :=
  match k with
  | CatDigit => isdecimal U c
  | CatSpace => isspace c
  | CatWord => isalnum U c || N.eqb c 95
  end.

(** A cased literal [p] under IGNORECASE: the compiler stores
    [lo = tolower p] and the extra cases of [lo]; a character matches when
    its lower-case image is one of them. *)
Definition lit_match (p c : char) : bool :=
  let lo := tolower U p in
  existsb (N.eqb (tolower U c)) (lo :: extra_cases lo).

Definition setitem_match (c : char) (it : setitem) : bool :=
  match it with
  | SChar x => N.eqb c x
  | SCat k => cat_match k c
  end.

Definition cset_match (a : cset) (c : char) : bool :=
  match a with
  | Lit p => lit_match p c
  | Cat k => cat_match k c
  | InSet items => existsb (setitem_match c) items
  end.

Section Greedy.
Variable A : Type.
Variable p : char -> bool.
Variable min : nat.
(** [k taken rest]: the rest of the pattern, given the characters the
    repetition took and the input left. *)
Variable k : pystr -> pystr -> option A.

Fixpoint greedy (taken s : pystr) : option A :=
  let stop := if Nat.leb min (length taken) then k taken s else None in
  match s with
  | c :: s' =>
      if p c then
        match greedy (taken ++ [c]) s' with
        | Some r => Some r
        | None => stop
        end
      else stop
  | [] => stop
  end.
End Greedy.

(** Match the pattern at the head of [s]; the result is group 1 and the
    input left after the match. *)
Fixpoint match_here (re : regex) (g : option pystr) (s : pystr)
  : option (option pystr * pystr) :=
  match re with
  | [] => Some (g, s)
  | One a :: re' =>
      match s with
      | c :: s' => if cset_match a c then match_here re' g s' else None
      | [] => None
      end
  | Repeat min a :: re' =>
      greedy (cset_match a) min (fun _ rest => match_here re' g rest) [] s
  | GroupRepeat min a :: re' =>
      greedy (cset_match a) min
             (fun taken rest => match_here re' (Some taken) rest) [] s
  end.

(** The match object: where the match starts and ends, and group 1. *)
Record match_obj : Type := {
  m_start : nat;
  m_end : nat;
  m_group1 : option pystr
}.

(** [re.search]: the match at the leftmost position that has one. *)
Fixpoint search_from (re : regex) (pos : nat) (s : pystr) : option match_obj :=
  match match_here re None s with
  | Some (g, rest) =>
      Some {| m_start := pos;
              m_end := (pos + (length s - length rest))%nat;
              m_group1 := g |}
  | None =>
      match s with
      | [] => None
      | _ :: s' => search_from re (S pos) s'
      end
  end.

Definition re_search (re : regex) (text : pystr) : option match_obj :=
  search_from re 0 text.

(** [m.group(1)] of a pattern whose group always takes part in a match. *)
Definition group1 (m : match_obj) : pystr :=
  match m_group1 m with
  | Some g => g
  | None => []
  end.
End Matcher.

Definition lits (s : string) : regex := map (fun c => One (Lit c)) (py s).
Arguments lits s%_string.

Definition colon_or_space : cset := InSet [SChar 58; SCat CatSpace].

(** r'(\d+)\s*kcal' *)
Definition kcal_re : regex :=
  [GroupRepeat 1 (Cat CatDigit); Repeat 0 (Cat CatSpace)] ++ lits "kcal".

(** r'Protein[:\s]+(\d+)' *)
Definition protein_re : regex :=
  lits "Protein" ++ [Repeat 1 colon_or_space; GroupRepeat 1 (Cat CatDigit)].

(** r'Carb\w*[:\s]+(\d+)' *)
Definition carb_re : regex :=
  lits "Carb" ++ [Repeat 0 (Cat CatWord); Repeat 1 colon_or_space;
                  GroupRepeat 1 (Cat CatDigit)].

(** r'Fat\w*[:\s]+(\d+)' *)
Definition fat_re : regex :=
  lits "Fat" ++ [Repeat 0 (Cat CatWord); Repeat 1 colon_or_space;
                 GroupRepeat 1 (Cat CatDigit)].

(** ** FactExtractor *)

Section FactExtractor.
Variable U : UCD.
Variable limit : nat.

Definition extract_calories (text : pystr) : outcome N :=
  match re_search U kcal_re text with
  | Some m => py_int U limit (group1 m)
  | None => Returns 0
  end.

Definition extract_macros (text : pystr)
  : outcome (option N * option N * option N) :=
  let p := re_search U protein_re text in
  let c := re_search U carb_re text in
  let f := re_search U fat_re text in
  match p, c, f with
  | Some mp, Some mc, Some mf =>
      match py_int U limit (group1 mp) with
      | Raises => Raises
      | Returns vp =>
          match py_int U limit (group1 mc) with
          | Raises => Raises
          | Returns vc =>
              match py_int U limit (group1 mf) with
              | Raises => Raises
              | Returns vf => Returns (Some vp, Some vc, Some vf)
              end
          end
      end
  | _, _, _ => Returns (None, None, None)
  end.
End FactExtractor.

(** ** String methods used by the source *)

Fixpoint starts_with (pre s : pystr) : bool :=
  match pre, s with
  | [], _ => true
  | x :: pre', c :: s' => N.eqb x c && starts_with pre' s'
  | _ :: _, [] => false
  end.

(** [s.replace(old, new)] for a non-empty [old]: occurrences are replaced
    from left to right and do not overlap.  [skip] counts the characters of
    an occurrence of [old] still to be dropped. *)
Fixpoint replace_from (old new : pystr) (skip : nat) (s : pystr) : pystr :=
  match s with
  | [] => []
  | c :: s' =>
      match skip with
      | S n => replace_from old new n s'
      | O =>
          if starts_with old s
          then new ++ replace_from old new (length old - 1) s'
          else c :: replace_from old new 0 s'
      end
  end.

Definition replace (old new s : pystr) : pystr := replace_from old new 0 s.

(** [s.split(sep)] for a one-character separator. *)
Fixpoint split (sep : char) (s : pystr) : list pystr :=
  match s with
  | [] => [[]]
  | c :: s' =>
      if N.eqb c sep then [] :: split sep s'
      else match split sep s' with
           | l :: ls => (c :: l) :: ls
           | [] => [[c]]
           end
  end.

Fixpoint lstrip (s : pystr) : pystr :=
  match s with
  | c :: s' => if isspace c then lstrip s' else s
  | [] => []
  end.

Definition rstrip (s : pystr) : pystr := rev (lstrip (rev s)).

(** [s.strip()] *)
Definition strip (s : pystr) : pystr := rstrip (lstrip s).

(** Truth value of a string: non-empty. *)
Definition truthy (s : pystr) : bool :=
  match s with
  | [] => false
  | _ :: _ => true
  end.

Definition LF : char := 10.

(** [html.escape(s)] with its default [quote=True], as the library writes
    it: five replacements, the ampersand first. *)
Definition html_escape (s : pystr) : pystr :=
  let s := replace [38] (py "&amp;") s in
  let s := replace [60] (py "&lt;") s in
  let s := replace [62] (py "&gt;") s in
  let s := replace [34] (py "&quot;") s in
  let s := replace [39] (py "&#x27;") s in
  s.

(** ** ReportRenderer *)

Definition clean_text (text : pystr) : pystr :=
  let text := html_escape text in
  let text := replace (py "**") [] text in
  let text := replace (py "*") [] text in
  text.

(** ** The clock *)

Record datetime : Type := {
  year : N; month : N; day : N;
  hour : N; minute : N; second : N; microsecond : N
}.

Definition dec2 (n : N) : pystr := [48 + (n / 10) mod 10; 48 + n mod 10].

Definition dec4 (n : N) : pystr :=
  [48 + (n / 1000) mod 10; 48 + (n / 100) mod 10;
   48 + (n / 10) mod 10; 48 + n mod 10].

(** [%Y] as the C library of the deployment (glibc) writes it: the year in
    decimal, without padding. *)
Definition dec_year (y : N) : pystr :=
  if N.ltb y 10 then [48 + y]
  else if N.ltb y 100 then dec2 y
  else if N.ltb y 1000 then (48 + (y / 100) mod 10) :: dec2 y
  else dec4 y.

(** [t.strftime("%d-%m-%Y %H:%M")], for the years a [datetime] holds
    (1..9999). *)
Definition strftime_dmY_HM (t : datetime) : pystr :=
  dec2 (day t) ++ [45] ++ dec2 (month t) ++ [45] ++ dec_year (year t)
  ++ [32] ++ dec2 (hour t) ++ [58] ++ dec2 (minute t).

(** Lexicographic order on lists of numbers. *)
Fixpoint lex_ltb (a b : list N) : bool :=
  match a, b with
  | _, [] => false
  | [], _ :: _ => true
  | x :: a', y :: b' => N.ltb x y || (N.eqb x y && lex_ltb a' b')
  end.

(** [t1 < t2] on naive datetimes: the fields, most significant first. *)
Definition dt_key (t : datetime) : list N :=
  [year t; month t; day t; hour t; minute t; second t; microsecond t].

Definition dt_ltb (t1 t2 : datetime) : bool := lex_ltb (dt_key t1) (dt_key t2).

Definition is_leap (y : N) : bool :=
  (N.eqb (y mod 4) 0 && negb (N.eqb (y mod 100) 0)) || N.eqb (y mod 400) 0.

Definition days_in_month (y m : N) : N :=
  if N.eqb m 2 then (if is_leap y then 29 else 28)
  else if N.eqb m 4 || N.eqb m 6 || N.eqb m 9 || N.eqb m 11 then 30
  else 31.

(** The values a [datetime] can hold. *)
Definition dt_valid (t : datetime) : bool :=
  between 1 9999 (year t) && between 1 12 (month t)
  && between 1 (days_in_month (year t) (month t)) (day t)
  && N.ltb (hour t) 24 && N.ltb (minute t) 60 && N.ltb (second t) 60
  && N.ltb (microsecond t) 1000000.

(** ** generate_pdf

    The story handed to reportlab's [doc.build], which lays it out and
    writes the bytes; the bytes themselves are the library's. *)

Inductive style := StyleTitle | StyleNormal | StyleNormalText | StyleItalic.

Inductive flowable :=
| Paragraph (text : pystr) (st : style)
| Spacer (width height : N).

Definition en_dash : char := 8211.

Definition report_title : pystr :=
  py "NutriVision " ++ [en_dash] ++ py " Nutrition Report".

Definition report_footer : pystr := py "Generated using NutriVision App".

(** The loop over the lines of the cleaned text. *)
Fixpoint body_paragraphs (lines : list pystr) : list flowable :=
  match lines with
  | [] => []
  | line :: lines' =>
      if truthy (strip line)
      then Paragraph line StyleNormalText :: Spacer 1 6 :: body_paragraphs lines'
      else body_paragraphs lines'
  end.

Definition generate_pdf (now : datetime) (text : pystr) : list flowable :=
  [Paragraph report_title StyleTitle;
   Spacer 1 10;
   Paragraph (py "Generated on: " ++ strftime_dmY_HM now) StyleNormal;
   Spacer 1 14]
  ++ body_paragraphs (split LF (clean_text text))
  ++ [Spacer 1 20;
      Paragraph report_footer StyleItalic].

(** ** UTF-8 and urllib.parse.quote *)

(** [c.encode("utf-8")]; [None] is UnicodeEncodeError (a surrogate). *)
Definition utf8_char (c : char) : option (list N) :=
  if N.ltb c 128 then Some [c]
  else if N.ltb c 2048 then Some [192 + c / 64; 128 + c mod 64]
  else if between 55296 57343 c then None
  else if N.ltb c 65536 then
    Some [224 + c / 4096; 128 + (c / 64) mod 64; 128 + c mod 64]
  else if N.ltb c 1114112 then
    Some [240 + c / 262144; 128 + (c / 4096) mod 64;
          128 + (c / 64) mod 64; 128 + c mod 64]
  else None.

Fixpoint utf8_encode (s : pystr) : option (list N) :=
  match s with
  | [] => Some []
  | c :: s' =>
      match utf8_char c, utf8_encode s' with
      | Some bs, Some bs' => Some (bs ++ bs')
      | _, _ => None
      end
  end.

(** [_ALWAYS_SAFE] and the default [safe='/']. *)
Definition quote_safe (b : N) : bool :=
  between 65 90 b || between 97 122 b || between 48 57 b
  || N.eqb b 95 || N.eqb b 46 || N.eqb b 45 || N.eqb b 126 || N.eqb b 47.

Definition hex_digit (d : N) : char := if N.ltb d 10 then 48 + d else 55 + d.

(** One byte: itself when safe, else '%%{:02X}'. *)
Definition quote_byte (b : N) : pystr :=
  if quote_safe b then [b] else [37; hex_digit (b / 16); hex_digit (b mod 16)].

Definition quote_from_bytes (bs : list N) : pystr := flat_map quote_byte bs.

Definition quote (s : pystr) : option pystr :=
  option_map quote_from_bytes (utf8_encode s).

(** ** ShareLinkBuilder *)

Definition APP_URL : pystr := py "https://nutri-app.onrender.com".

Definition whatsapp_share (text : pystr) : option pystr :=
  option_map (app (py "https://wa.me/?text=")) (quote text).

(** The f-string of the handler. *)
Definition share_text (username result : pystr) : pystr :=
  [LF] ++ report_title ++ [LF]
  ++ [LF]
  ++ py "User: " ++ username ++ [LF]
  ++ [LF]
  ++ result ++ [LF]
  ++ [LF]
  ++ py "Download full PDF:" ++ [LF]
  ++ APP_URL ++ [LF].

Definition share_link (username result : pystr) : option pystr :=
  whatsapp_share (share_text username result).

(** ** ChartBuilder: the pie chart block of the handler *)

Record pie : Type := {
  pie_values : list N;
  pie_labels : list pystr;
  pie_autopct : pystr;
  pie_startangle : N;
  pie_title : pystr
}.

(** [None]: the block is skipped and nothing is drawn. *)
Definition pie_chart (m : option N * option N * option N) : option pie :=
  let '(p, c, f) := m in
  if forallb (@is_not_none N) [p; c; f] then
    match p, c, f with
    | Some p, Some c, Some f =>
        if N.ltb 0 (p + c + f) then
          Some {| pie_values := [p; c; f];
                  pie_labels := [py "Protein"; py "Carbs"; py "Fat"];
                  pie_autopct := py "%1.1f%%";
                  pie_startangle := 90;
                  pie_title := py "Macronutrient Distribution" |}
        else None
    | _, _, _ => None
    end
  else None.

(** ** HistoryStore: the [history] table *)

Record history_row : Type := {
  h_id : Z;
  h_username : pystr;
  h_date : pystr;
  h_meal : pystr;
  h_calories : Z;
  h_details : pystr
}.

(** The table, in insertion order. *)
Definition history := list history_row.

(** The five parameters of the INSERT: an analysis record. *)
Record analysis_record : Type := {
  rec_username : pystr;
  rec_date : pystr;
  rec_meal : pystr;
  rec_calories : Z;
  rec_details : pystr
}.

Definition INT64_MAX : Z := 9223372036854775807.
Definition INT64_MIN : Z := -9223372036854775808.

(** A [str] parameter is bound as UTF-8, an [int] as a 64-bit integer. *)
Definition bindable_text (s : pystr) : bool := is_not_none (utf8_encode s).

Definition bindable_int (z : Z) : bool :=
  Z.leb INT64_MIN z && Z.leb z INT64_MAX.

(** AUTOINCREMENT: one more than the largest id of the table (rows are
    never deleted). *)
Definition next_id (tbl : history) : Z :=
  1 + fold_right (fun r m => Z.max (h_id r) m) 0%Z tbl.

(** INSERT INTO history(username,date,meal,calories,details) VALUES
    (?,?,?,?,?); [None] when a parameter cannot be bound or the ids are
    used up, in which case the statement raises and the table is unchanged. *)
Definition history_insert (tbl : history) (r : analysis_record) : option history :=
  if bindable_text (rec_username r) && bindable_text (rec_date r)
     && bindable_text (rec_meal r) && bindable_int (rec_calories r)
     && bindable_text (rec_details r) && Z.leb (next_id tbl) INT64_MAX
  then Some (tbl ++ [{| h_id := next_id tbl;
                        h_username := rec_username r;
                        h_date := rec_date r;
                        h_meal := rec_meal r;
                        h_calories := rec_calories r;
                        h_details := rec_details r |}])
  else None.

Inductive column :=
| col_id | col_username | col_date | col_meal | col_calories | col_details.

Inductive value :=
| VInt (z : Z)
| VText (s : pystr).

Definition column_eqb (a b : column) : bool :=
  match a, b with
  | col_id, col_id | col_username, col_username | col_date, col_date
  | col_meal, col_meal | col_calories, col_calories
  | col_details, col_details => true
  | _, _ => false
  end.

Definition column_value (c : column) (r : history_row) : value :=
  match c with
  | col_id => VInt (h_id r)
  | col_username => VText (h_username r)
  | col_date => VText (h_date r)
  | col_meal => VText (h_meal r)
  | col_calories => VInt (h_calories r)
  | col_details => VText (h_details r)
  end.

(** A result row: the selected columns, in the order of the SELECT list. *)
Definition result_row := list (column * value).

Definition select (cols : list column) (r : history_row) : result_row :=
  map (fun c => (c, column_value c r)) cols.

Fixpoint row_get (c : column) (row : result_row) : option value :=
  match row with
  | [] => None
  | (c', v) :: row' => if column_eqb c c' then Some v else row_get c row'
  end.

(** ORDER BY date DESC on a TEXT column: the binary collation, which on
    UTF-8 is the order of the code points.  Rows with equal dates keep their
    table order here; SQL leaves their order open. *)
Fixpoint insert_desc (r : history_row) (l : list history_row) : list history_row :=
  match l with
  | [] => [r]
  | x :: l' =>
      if lex_ltb (h_date r) (h_date x) then x :: insert_desc r l'
      else r :: x :: l'
  end.

Definition order_by_date_desc (l : list history_row) : list history_row :=
  fold_right insert_desc [] l.

(** SELECT date, meal, calories FROM history WHERE username=?
    ORDER BY date DESC *)
Definition history_query (tbl : history) (owner : pystr) : list result_row :=
  map (select [col_date; col_meal; col_calories])
      (order_by_date_desc (filter (fun r => str_eqb (h_username r) owner) tbl)).

(** ** The "Analyse Food" handler, after the model has answered *)

Section Handler.
Variable U : UCD.
Variable limit : nat.

(** The parameters of the INSERT, from the calorie figure already
    extracted. *)
Definition analysis_of (username : pystr) (now : datetime) (result : pystr)
           (calories : N) : analysis_record :=
  {| rec_username := username;
     rec_date := strftime_dmY_HM now;
     rec_meal := hd [] (split LF result);
     rec_calories := Z.of_N calories;
     rec_details := result |}.

(** From [extract_calories] to the commit.  [locked]: a connection that was
    left open inside a write transaction (see [create_click]) still holds
    the database, and the INSERT raises "database is locked".  [None]: the
    handler stops here and nothing is stored. *)
Definition record_analysis (locked : bool) (tbl : history) (username : pystr)
           (now : datetime) (result : pystr) : option history :=
  match extract_calories U limit result with
  | Raises => None
  | Returns calories =>
      if locked then None
      else history_insert tbl (analysis_of username now result calories)
  end.

Definition analysis_chart (result : pystr) : outcome (option pie) :=
  match extract_macros U limit result with
  | Raises => Raises
  | Returns m => Returns (pie_chart m)
  end.
End Handler.

(** The whole click: the table afterwards and how far the handler got.
    The record is committed first, then the card is shown, then
    [extract_macros] runs, then the PDF (which reads the clock again) and the
    share link are built. *)
Record analysis_view : Type := {
  view_chart : option pie;
  view_pdf : list flowable;
  view_link : pystr
}.

Inductive handler_end :=
| StoppedBeforeStore                               (* nothing stored or shown *)
| StoppedAfterCard (card : pystr)                  (* stored, card shown, then raised *)
| Finished (card : pystr) (view : analysis_view).  (* ran to its end *)

Definition result_card (result : pystr) : pystr :=
  py "<div class='card'>" ++ result ++ py "</div>".

Definition analyse_food (U : UCD) (limit : nat) (locked : bool) (tbl : history)
           (username : pystr) (now_insert now_pdf : datetime) (result : pystr)
  : history * handler_end :=
  match record_analysis U limit locked tbl username now_insert result with
  | None => (tbl, StoppedBeforeStore)
  | Some tbl' =>
      match analysis_chart U limit result with
      | Raises => (tbl', StoppedAfterCard (result_card result))
      | Returns chart =>
          match share_link username result with
          | None => (tbl', StoppedAfterCard (result_card result))
          | Some link =>
              (tbl', Finished (result_card result)
                              {| view_chart := chart;
                                 view_pdf := generate_pdf now_pdf result;
                                 view_link := link |})
          end
      end
  end.

(** ** Accounts: [hash_pass], the [users] table and the two buttons

    SHA-256 itself is the library's; it is a parameter: [sha256 b] stands for
    the digest bytes [hashlib.sha256(b).digest()]. *)

Definition hex_lower (d : N) : char := if N.ltb d 10 then 48 + d else 87 + d.

(** [hexdigest()]: two lower-case hexadecimal digits for each byte. *)
Definition hexdigest (digest : list N) : pystr :=
  flat_map (fun b => [hex_lower ((b / 16) mod 16); hex_lower (b mod 16)]) digest.

Record user_row : Type := {
  u_username : pystr;
  u_password : pystr
}.

Definition users := list user_row.

Record session : Type := {
  logged_in : bool;
  username : pystr
}.

Inductive notice :=
| InvalidCredentials      (* st.error("Invalid credentials") *)
| AccountCreated          (* st.success("Account created. Login now.") *)
| UsernameExists.         (* st.error("Username already exists") *)

Section Auth.
Variable sha256 : list N -> list N.

(** [None]: [p.encode()] raises. *)
Definition hash_pass (p : pystr) : option pystr :=
  option_map (fun b => hexdigest (sha256 b)) (utf8_encode p).

(** SELECT password FROM users WHERE username=? and [fetchone()]. *)
Definition select_password (tbl : users) (u : pystr) : option pystr :=
  option_map u_password (find (fun r => str_eqb (u_username r) u) tbl).

(** The Login button.  [None]: an exception leaves the handler (the
    parameter cannot be bound, or the password cannot be encoded);
    otherwise the session afterwards and the message shown, if any.  The
    password is hashed only when a row was found. *)
Definition login_click (tbl : users) (st : session) (u p : pystr)
  : option (session * option notice) :=
  if bindable_text u then
    match select_password tbl u with
    | None => Some (st, Some InvalidCredentials)
    | Some stored =>
        match hash_pass p with
        | None => None
        | Some h =>
            if str_eqb stored h
            then Some ({| logged_in := true; username := u |}, None)
            else Some (st, Some InvalidCredentials)
        end
    end
  else None.

(** INSERT INTO users VALUES (?,?) under the PRIMARY KEY on username. *)
Definition users_insert (tbl : users) (nu h : pystr) : option users :=
  if bindable_text nu && bindable_text h
     && negb (existsb (fun r => str_eqb (u_username r) nu) tbl)
  then Some (tbl ++ [{| u_username := nu; u_password := h |}])
  else None.

(** The Create Account button: whatever is raised inside the [try] is
    caught by the bare [except] and reported as an existing username, and
    then neither [commit] nor [close] runs.

    The state is the table and one flag, [locked]: a connection left open
    inside a write transaction holds the database, and every INSERT of
    another connection raises "database is locked" (a SELECT still works).
    A refused duplicate leaves such a connection; it goes away only when the
    interpreter collects the connection object, which the program does not
    control, so the flag is an input of every click.  A parameter that cannot
    be bound raises before the statement runs and takes no lock.  The result
    is the table, the message and the flag afterwards. *)
Definition create_click (locked : bool) (tbl : users) (nu np : pystr)
  : users * notice * bool :=
  match hash_pass np with
  | None => (tbl, UsernameExists, locked)
  | Some h =>
      if negb (bindable_text nu && bindable_text h)
      then (tbl, UsernameExists, locked)
      else if locked then (tbl, UsernameExists, locked)
      else
        match users_insert tbl nu h with
        | Some tbl' => (tbl', AccountCreated, false)
        | None => (tbl, UsernameExists, true)
        end
  end.
End Auth.

(** ** What the specification speaks of

    The definitions below follow the words of the specification; the
    theorems of Part II relate them to the program above. *)

Section SpecWords.
Variable U : UCD.

(** The strings a pattern denotes. *)
Fixpoint matches (re : regex) (w : pystr) : Prop :=
  match re with
  | [] => w = []
  | One a :: re' =>
      exists c w', w = c :: w' /\ cset_match U a c = true /\ matches re' w'
  | Repeat min a :: re' | GroupRepeat min a :: re' =>
      exists u w', w = u ++ w'
                   /\ Forall (fun c => cset_match U a c = true) u
                   /\ (min <= length u)%nat /\ matches re' w'
  end.

(** The pattern matches at position [i] of the text. *)
Definition occurs_at (re : regex) (text : pystr) (i : nat) : Prop :=
  (i <= length text)%nat
  /\ exists w post, skipn i text = w ++ post /\ matches re w.

(** The pattern matches somewhere in the text. *)
Definition occurs (re : regex) (text : pystr) : Prop :=
  exists i, occurs_at re text i.

(** [lab] is [label] up to case. *)
Definition ci_eq (label lab : pystr) : Prop :=
  Forall2 (fun p c => lit_match U p c = true) label lab.

Definition all_decimal (ds : pystr) : Prop :=
  Forall (fun c => isdecimal U c = true) ds.

Definition all_space (ws : pystr) : Prop :=
  Forall (fun c => isspace c = true) ws.

(** A labeled integer field: the label up to case, a run of word
    characters when the label may have a suffix, one or more colons or
    white-space characters, and one or more digits. *)
Definition labeled_field (label : pystr) (suffix : bool) (text : pystr) : Prop :=
  exists pre lab suf seps ds post,
    text = pre ++ lab ++ suf ++ seps ++ ds ++ post
    /\ ci_eq label lab
    /\ (if suffix
        then Forall (fun c => cat_match U CatWord c = true) suf
        else suf = [])
    /\ seps <> []
    /\ Forall (fun c => N.eqb c 58 || isspace c = true) seps
    /\ ds <> [] /\ all_decimal ds.

(** An occurrence of "<digits> kcal" that starts at position
    [length pre]. *)
Definition kcal_occurrence (text pre ds : pystr) : Prop :=
  exists ws kc post,
    text = pre ++ ds ++ ws ++ kc ++ post
    /\ ds <> [] /\ all_decimal ds /\ all_space ws /\ ci_eq (py "kcal") kc.

Definition kcal_starts_at (text : pystr) (i : nat) : Prop :=
  exists pre ds, length pre = i /\ kcal_occurrence text pre ds.
End SpecWords.

(** The pattern has no capturing group. *)
Definition groupless (re : regex) : bool :=
  forallb (fun n => match n with GroupRepeat _ _ => false | _ => true end) re.

(** No match of the pattern starts at any of the first [n] positions. *)
Definition no_match_before (U : UCD) (re : regex) (text : pystr) (n : nat) : bool :=
  forallb (fun j => negb (is_not_none (match_here U re None (skipn j text))))
          (seq 0 n).

(** The pattern of a labeled integer field, from its label. *)
Definition field_re (label : pystr) (suffix : bool) : regex :=
  map (fun c => One (Lit c)) label
  ++ (if suffix then [Repeat 0 (Cat CatWord)] else [])
  ++ [Repeat 1 colon_or_space; GroupRepeat 1 (Cat CatDigit)].

(** All three labeled fields are in the text. *)
Definition macros_present (U : UCD) (text : pystr) : Prop :=
  labeled_field U (py "Protein") false text
  /\ labeled_field U (py "Carb") true text
  /\ labeled_field U (py "Fat") true text.

(** Two facts of the Unicode database, for the part of it that is a
    parameter: a decimal digit is not white space and does not lower-case to
    the letter k. *)
Definition ucd_wf (U : UCD) : Prop :=
  forall c, ucd_isdecimal U c = true ->
            isspace c = false /\ ucd_tolower U c <> 107.

(** [html.escape], one character at a time. *)
Definition escape_char (c : char) : pystr :=
  if N.eqb c 38 then py "&amp;"
  else if N.eqb c 60 then py "&lt;"
  else if N.eqb c 62 then py "&gt;"
  else if N.eqb c 34 then py "&quot;"
  else if N.eqb c 39 then py "&#x27;"
  else [c].

Definition STAR : char := 42.

Definition not_star (c : char) : bool := negb (N.eqb c STAR).

(** The markup-significant characters. *)
Definition markup_char (c : char) : bool :=
  N.eqb c 38 || N.eqb c 60 || N.eqb c 62 || N.eqb c 34 || N.eqb c 39.

(** A blank line: nothing but white space. *)
Definition is_blank (line : pystr) : bool := forallb isspace line.

(** The texts of the body paragraphs of a story, in order. *)
Fixpoint body_texts (story : list flowable) : list pystr :=
  match story with
  | [] => []
  | Paragraph t StyleNormalText :: story' => t :: body_texts story'
  | _ :: story' => body_texts story'
  end.

(** All the paragraphs of a story, in order. *)
Fixpoint paragraphs (story : list flowable) : list (pystr * style) :=
  match story with
  | [] => []
  | Paragraph t st :: story' => (t, st) :: paragraphs story'
  | Spacer _ _ :: story' => paragraphs story'
  end.

(** Text that UTF-8 can encode: code points other than surrogates. *)
Definition scalar (c : char) : bool :=
  N.ltb c 55296 || (N.ltb 57343 c && N.ltb c 1114112).

Definition valid_text (s : pystr) : bool := forallb scalar s.

(** Percent-decoding, to read a quoted string back. *)
Definition hex_value (c : char) : option N :=
  if between 48 57 c then Some (c - 48)
  else if between 65 70 c then Some (c - 55)
  else if between 97 102 c then Some (c - 87)
  else None.

Fixpoint unquote_to_bytes (s : pystr) : list N :=
  match s with
  | [] => []
  | c :: s' =>
      match s' with
      | h :: l :: rest =>
          if N.eqb c 37 then
            match hex_value h, hex_value l with
            | Some x, Some y => (16 * x + y) :: unquote_to_bytes rest
            | _, _ => c :: unquote_to_bytes s'
            end
          else c :: unquote_to_bytes s'
      | _ => c :: unquote_to_bytes s'
      end
  end.

(** The fixed parts of the shared message. *)
Definition share_prefix : pystr :=
  [LF] ++ report_title ++ [LF; LF] ++ py "User: ".

Definition share_middle : pystr := [LF; LF].

Definition share_suffix : pystr :=
  [LF; LF] ++ py "Download full PDF:" ++ [LF] ++ APP_URL ++ [LF].

Definition wa_base : pystr := py "https://wa.me/?text=".

(** The value a record holds for a column of the table. *)
Definition record_value (c : column) (r : analysis_record) : option value :=
  match c with
  | col_id => None
  | col_username => Some (VText (rec_username r))
  | col_date => Some (VText (rec_date r))
  | col_meal => Some (VText (rec_meal r))
  | col_calories => Some (VInt (rec_calories r))
  | col_details => Some (VText (rec_details r))
  end.

(** A result row equals a record in the given fields. *)
Definition row_equals (fields : list column) (row : result_row)
           (r : analysis_record) : Prop :=
  forall c, In c fields -> row_get c row = record_value c r.

(** Round trip through the store, for a choice of fields: after the record
    is appended, the query for its owner has a row equal to it in them. *)
Definition round_trip (fields : list column) : Prop :=
  forall (tbl tbl' : history) (r : analysis_record),
    history_insert tbl r = Some tbl' ->
    exists row, In row (history_query tbl' (rec_username r))
                /\ row_equals fields row r.

(** The timestamp of a result row. *)
Definition row_date (row : result_row) : pystr :=
  match row_get col_date row with
  | Some (VText d) => d
  | _ => []
  end.



(** Two clock readings a month apart, and a record, to run the store on. *)
Definition jan_02 : datetime :=
  {| year := 2025; month := 1; day := 2; hour := 9; minute := 0;
     second := 0; microsecond := 0 |}.

Definition feb_01 : datetime :=
  {| year := 2025; month := 2; day := 1; hour := 9; minute := 0;
     second := 0; microsecond := 0 |}.

Definition sample_record : analysis_record :=
  {| rec_username := py "asha";
     rec_date := py "02-01-2025 09:00";
     rec_meal := py "Grilled Chicken Salad";
     rec_calories := 350;
     rec_details := py "Grilled Chicken Salad" ++ [LF] ++ py "Total Calories: 350 kcal" |}.

(** The analysis text of the specification's scenario. *)
Definition sample_analysis : pystr :=
  py "Grilled Chicken Salad" ++ [LF]
  ++ py "Ingredients and Calories: ..." ++ [LF]
  ++ py "Total Calories: 350 kcal" ++ [LF]
  ++ py "Macronutrient Profile:" ++ [LF]
  ++ py "Protein: 30" ++ [LF]
  ++ py "Carbs: 20" ++ [LF]
  ++ py "Fat: 10" ++ [LF]
  ++ py "Fiber: 5 grams".

(** A further fact of the Unicode database above U+00FF: a word character
    is not white space. *)
Definition ucd_wf_word (U : UCD) : Prop :=
  forall c, ucd_isalnum U c = true -> isspace c = false.

(** The labeled field that starts at position [length pre] of the text,
    with [ds] its whole run of digits. *)
Definition field_at (U : UCD) (label : pystr) (suffix : bool)
           (text pre ds : pystr) : Prop :=
  exists lab suf seps post,
    text = pre ++ lab ++ suf ++ seps ++ ds ++ post
    /\ ci_eq U label lab
    /\ (if suffix
        then Forall (fun c => cat_match U CatWord c = true) suf
        else suf = [])
    /\ seps <> []
    /\ Forall (fun c => N.eqb c 58 || isspace c = true) seps
    /\ ds <> [] /\ all_decimal U ds
    /\ (forall c post', post = c :: post' -> isdecimal U c = false).

(** ... and no occurrence of the field's pattern starts before it. *)
Definition first_field (U : UCD) (label : pystr) (suffix : bool)
           (text pre ds : pystr) : Prop :=
  field_at U label suffix text pre ds
  /\ forall i, (i < length pre)%nat -> ~ occurs_at U (field_re label suffix) text i.

(** The characters a quoted string is made of. *)
Definition quoted_char (c : char) : bool := quote_safe c || N.eqb c 37.

(** The order the stored timestamps sort by. *)
Definition dmy_key (t : datetime) : list N :=
  [day t; month t; year t; hour t; minute t].

Definition usernames (tbl : users) : list pystr := map u_username tbl.

Definition history_ids (tbl : history) : list Z := map h_id tbl.

(** Reading UTF-8 back, to state that nothing of a message is lost. *)
Fixpoint utf8_decode (bs : list N) : option pystr :=
  match bs with
  | [] => Some []
  | b1 :: r1 =>
      if N.ltb b1 128 then option_map (cons b1) (utf8_decode r1)
      else if N.ltb b1 224 then
        match r1 with
        | b2 :: r2 =>
            option_map (cons ((b1 - 192) * 64 + (b2 - 128))) (utf8_decode r2)
        | _ => None
        end
      else if N.ltb b1 240 then
        match r1 with
        | b2 :: b3 :: r3 =>
            option_map (cons ((b1 - 224) * 4096 + (b2 - 128) * 64 + (b3 - 128)))
                       (utf8_decode r3)
        | _ => None
        end
      else
        match r1 with
        | b2 :: b3 :: b4 :: r4 =>
            option_map (cons ((b1 - 240) * 262144 + (b2 - 128) * 4096
                              + (b3 - 128) * 64 + (b4 - 128)))
                       (utf8_decode r4)
        | _ => None
        end
  end.

(** *** Case, stated without the matcher

    Folding of the ASCII letters, and a word written in any mixture of upper
    and lower case. *)
Definition ascii_lower (c : char) : char :=
  if between 65 90 c then c + 32 else c.

Definition ascii_letter (p : char) : bool := between 65 90 p || between 97 122 p.

Definition spelled (word lab : pystr) : Prop :=
  map ascii_lower lab = map ascii_lower word.

(** Text of the Latin-1 range, where the character classes are written out
    in full. *)
Definition latin1_text (text : pystr) : Prop := Forall (fun c => c < 256) text.

(** The character classes, written out: the ten digits; white space, all
    of it; and the word characters of the Latin-1 range (letters, digits,
    the underscore, and the letters and numbers above U+007F). *)
Definition written_digit (c : char) : Prop := 48 <= c /\ c <= 57.

Definition white_space : list char :=
  [9; 10; 11; 12; 13; 28; 29; 30; 31; 32; 133; 160; 5760;
   8192; 8193; 8194; 8195; 8196; 8197; 8198; 8199; 8200; 8201; 8202;
   8232; 8233; 8239; 8287; 12288].

Definition written_space (c : char) : Prop := In c white_space.

Definition written_word (c : char) : Prop :=
  (48 <= c /\ c <= 57) \/ (65 <= c /\ c <= 90) \/ c = 95
  \/ (97 <= c /\ c <= 122)
  \/ In c [170; 178; 179; 181; 185; 186; 188; 189; 190]
  \/ (192 <= c /\ c <= 255 /\ c <> 215 /\ c <> 247).



(** An occurrence of digits, optional white space and the word kcal in any
    case, starting at position [length pre]. *)
Definition kcal_written (text pre ds : pystr) : Prop :=
  exists ws kc post,
    text = pre ++ ds ++ ws ++ kc ++ post
    /\ ds <> [] /\ Forall written_digit ds /\ Forall written_space ws
    /\ spelled (py "kcal") kc.

(** A text with one digit more than the default limit of [int()]. *)
Definition too_many_digits : pystr := repeat 49 (S DEFAULT_MAX_STR_DIGITS).

(** *** Percent-encoding, stated without [quote]

    The characters that stand for themselves, and the encoding of a byte
    string: such a byte is copied, any other byte is written as "%" and its
    two upper-case hexadecimal digits. *)
Definition unreserved_or_slash : pystr :=
  py "ABCDEFGHIJKLMNOPQRSTUVWXYZabcdefghijklmnopqrstuvwxyz0123456789-._~/".

Definition hex_upper : pystr := py "0123456789ABCDEF".

Inductive percent_encoded : list N -> pystr -> Prop :=
| pe_nil : percent_encoded [] []
| pe_plain : forall b bs v,
    In b unreserved_or_slash ->
    percent_encoded bs v -> percent_encoded (b :: bs) (b :: v)
| pe_escape : forall b bs v hi lo x y,
    ~ In b unreserved_or_slash ->
    b = 16 * hi + lo ->
    nth_error hex_upper (N.to_nat hi) = Some x ->
    nth_error hex_upper (N.to_nat lo) = Some y ->
    percent_encoded bs v -> percent_encoded (b :: bs) (37 :: x :: y :: v).




(** A database with nothing above U+00FF, to run the definitions on
    Latin-1 text. *)
Definition latin1 : UCD :=
  {| ucd_isdecimal := fun _ => false;
     ucd_digit := fun _ => 0;
     ucd_isalnum := fun _ => false;
     ucd_tolower := fun c => c |}.


(* ================================================================== *)
(** * Part II: properties *)
(* ================================================================== *)

Unset Implicit Arguments.

(** ** The backtracking matcher against the language of a pattern *)

Section GreedyFacts.
Variable A : Type.
Variable p : char -> bool.
Variable min : nat.
Variable k : pystr -> pystr -> option A.

Lemma greedy_sound : forall s taken r,
    greedy p min k taken s = Some r ->
    exists u rest,
      s = u ++ rest /\ Forall (fun c => p c = true) u
      /\ (min <= length (taken ++ u))%nat /\ k (taken ++ u) rest = Some r.
Proof.
  induction s as [|c s IH]; intros taken r H; simpl in H.
  - destruct (Nat.leb min (length taken)) eqn:E; [|discriminate].
    exists [], []. apply Nat.leb_le in E.
    repeat split; rewrite ?app_nil_r; auto.
  - assert (Hstop : (if Nat.leb min (length taken) then k taken (c :: s) else None)
                    = Some r ->
                    exists u rest,
                      c :: s = u ++ rest /\ Forall (fun c => p c = true) u
                      /\ (min <= length (taken ++ u))%nat
                      /\ k (taken ++ u) rest = Some r).
    { intros H'. destruct (Nat.leb min (length taken)) eqn:E; [|discriminate].
      exists [], (c :: s). apply Nat.leb_le in E.
      repeat split; rewrite ?app_nil_r; auto. }
    destruct (p c) eqn:Hc; [|auto].
    destruct (greedy p min k (taken ++ [c]) s) as [r'|] eqn:G; [|auto].
    inversion H; subst r'. clear H Hstop.
    destruct (IH _ _ G) as (u & rest & -> & Hu & Hlen & Hk).
    exists (c :: u), rest. rewrite <- app_assoc in Hlen, Hk. simpl in Hlen, Hk.
    repeat split; auto.
Qed.

Lemma greedy_complete : forall u taken rest,
    Forall (fun c => p c = true) u ->
    (min <= length (taken ++ u))%nat ->
    k (taken ++ u) rest <> None ->
    greedy p min k taken (u ++ rest) <> None.
Proof.
  induction u as [|c u IH]; intros taken rest Hu Hlen Hk.
  - rewrite app_nil_r in Hlen, Hk. apply Nat.leb_le in Hlen. simpl.
    destruct rest as [|c rest]; simpl; rewrite Hlen; auto.
    destruct (p c); auto.
    destruct (greedy p min k (taken ++ [c]) rest); [discriminate|auto].
  - inversion Hu as [|? ? Hc Hu']; subst. simpl. rewrite Hc.
    specialize (IH (taken ++ [c]) rest Hu').
    rewrite <- app_assoc in IH. simpl in IH. specialize (IH Hlen Hk).
    destruct (greedy p min k (taken ++ [c]) (u ++ rest)); [discriminate|].
    contradiction.
Qed.

(** When the run [u] cannot be extended and the rest of the pattern
    accepts it whole, that is the answer: the longest run is tried first. *)
Lemma greedy_longest : forall u taken rest r,
    Forall (fun c => p c = true) u ->
    (forall c rest', rest = c :: rest' -> p c = false) ->
    (min <= length (taken ++ u))%nat ->
    k (taken ++ u) rest = Some r ->
    greedy p min k taken (u ++ rest) = Some r.
Proof.
  induction u as [|c u IH]; intros taken rest r Hu Hrest Hlen Hk.
  - rewrite app_nil_r in Hlen, Hk. apply Nat.leb_le in Hlen. simpl.
    destruct rest as [|c rest]; simpl; rewrite Hlen; auto.
    rewrite (Hrest c rest eq_refl). assumption.
  - inversion Hu as [|? ? Hc Hu']; subst. simpl. rewrite Hc.
    rewrite (IH (taken ++ [c]) rest r); auto;
      rewrite <- app_assoc; simpl; assumption.
Qed.
End GreedyFacts.

Section MatcherFacts.
Variable U : UCD.

Lemma match_here_sound : forall re g s g' rest,
    match_here U re g s = Some (g', rest) ->
    exists w, s = w ++ rest /\ matches U re w.
Proof.
  induction re as [|n re IH]; intros g s g' rest H; simpl in H.
  - inversion H; subst. exists []. simpl. auto.
  - destruct n as [a|min a|min a].
    + destruct s as [|c s]; [discriminate|].
      destruct (cset_match U a c) eqn:Hc; [|discriminate].
      destruct (IH _ _ _ _ H) as (w & -> & Hw).
      exists (c :: w). split; [reflexivity|]. simpl. eauto.
    + apply greedy_sound in H. destruct H as (u & r & -> & Hu & Hlen & Hk).
      destruct (IH _ _ _ _ Hk) as (w & -> & Hw).
      exists (u ++ w). rewrite app_assoc. split; [reflexivity|].
      simpl. exists u, w. auto.
    + apply greedy_sound in H. destruct H as (u & r & -> & Hu & Hlen & Hk).
      destruct (IH _ _ _ _ Hk) as (w & -> & Hw).
      exists (u ++ w). rewrite app_assoc. split; [reflexivity|].
      simpl. exists u, w. auto.
Qed.

Lemma match_here_complete : forall re w g post,
    matches U re w -> match_here U re g (w ++ post) <> None.
Proof.
  induction re as [|n re IH]; intros w g post H; simpl in H.
  - subst. simpl. discriminate.
  - destruct n as [a|min a|min a].
    + destruct H as (c & w' & -> & Hc & Hw). simpl. rewrite Hc. auto.
    + destruct H as (u & w' & -> & Hu & Hlen & Hw). simpl.
      rewrite <- app_assoc. apply greedy_complete; auto.
    + destruct H as (u & w' & -> & Hu & Hlen & Hw). simpl.
      rewrite <- app_assoc. apply greedy_complete; auto.
Qed.

Lemma match_here_iff : forall re g s,
    match_here U re g s <> None <->
    exists w post, s = w ++ post /\ matches U re w.
Proof.
  intros re g s. split.
  - destruct (match_here U re g s) as [[g' rest]|] eqn:H; [|congruence].
    intros _. destruct (match_here_sound _ _ _ _ _ H) as (w & -> & Hw). eauto.
  - intros (w & post & -> & Hw). now apply match_here_complete.
Qed.

Lemma occurs_at_iff : forall re text i,
    occurs_at U re text i <->
    (i <= length text)%nat /\ match_here U re None (skipn i text) <> None.
Proof.
  intros. unfold occurs_at. now rewrite match_here_iff.
Qed.

(** [re.search] finds the leftmost position that has a match. *)
Lemma search_from_none : forall re s pos,
    search_from U re pos s = None <->
    (forall i, (i <= length s)%nat -> match_here U re None (skipn i s) = None).
Proof.
  induction s as [|c s IH]; intros pos; simpl.
  - destruct (match_here U re None []) as [[g rest]|] eqn:H.
    + split; [discriminate|]. intros H'. specialize (H' 0%nat (le_n _)).
      simpl in H'. congruence.
    + split; [|reflexivity]. intros _ i Hi. destruct i; [|lia]. exact H.
  - destruct (match_here U re None (c :: s)) as [[g rest]|] eqn:H.
    + split; [discriminate|]. intros H'. specialize (H' 0%nat (Nat.le_0_l _)).
      simpl in H'. congruence.
    + rewrite IH. split.
      * intros H' [|i] Hi; [exact H|]. simpl. apply H'. lia.
      * intros H' i Hi. apply (H' (S i)). lia.
Qed.

Lemma search_from_first : forall re pre s pos g rest,
    (forall j, (j < length pre)%nat ->
               match_here U re None (skipn j (pre ++ s)) = None) ->
    match_here U re None s = Some (g, rest) ->
    search_from U re pos (pre ++ s)
    = Some {| m_start := (pos + length pre)%nat;
              m_end := (pos + length pre + (length s - length rest))%nat;
              m_group1 := g |}.
Proof.
  induction pre as [|c pre IH]; intros s pos g rest Hpre Hs.
  - simpl. destruct s; simpl in *; rewrite Hs; rewrite !Nat.add_0_r; reflexivity.
  - assert (H0 := Hpre 0%nat ltac:(simpl; lia)). simpl in H0.
    simpl. rewrite H0.
    rewrite (IH s (S pos) g rest).
    + simpl. do 3 f_equal; lia.
    + intros j Hj. apply (Hpre (S j)). simpl. lia.
    + assumption.
Qed.

Lemma re_search_none : forall re text,
    re_search U re text = None <-> ~ occurs U re text.
Proof.
  intros re text. unfold re_search. rewrite search_from_none. split.
  - intros H (i & Hi). apply occurs_at_iff in Hi. destruct Hi as [Hi Hm].
    apply Hm, H, Hi.
  - intros H i Hi.
    destruct (match_here U re None (skipn i text)) eqn:E; [|reflexivity].
    exfalso. apply H. exists i. apply occurs_at_iff. split; [exact Hi|].
    congruence.
Qed.

Lemma re_search_some : forall re text,
    (exists m, re_search U re text = Some m) <-> occurs U re text.
Proof.
  intros re text. split.
  - intros (m & Hm). unfold re_search in Hm.
    assert (D : forall s pos m', search_from U re pos s = Some m' ->
                  exists i, (i <= length s)%nat
                            /\ match_here U re None (skipn i s) <> None).
    { induction s as [|c s IH]; intros pos m' Hs; simpl in Hs.
      - exists 0%nat. split; [reflexivity|]. simpl.
        destruct (match_here U re None []); [discriminate|discriminate].
      - destruct (match_here U re None (c :: s)) as [[g rest]|] eqn:E.
        + exists 0%nat. split; [lia|]. simpl. congruence.
        + destruct (IH _ _ Hs) as (i & Hi & Hm').
          exists (S i). split; [simpl; lia|]. exact Hm'. }
    destruct (D _ _ _ Hm) as (i & Hi & Hm').
    exists i. apply occurs_at_iff. auto.
  - intros H. destruct (re_search U re text) as [m|] eqn:E; [eauto|].
    apply re_search_none in E. contradiction.
Qed.
End MatcherFacts.

(** ** FactExtractor: the macro profile *)

Section MacroFacts.
Variable U : UCD.

Lemma occurs_split : forall re text,
    occurs U re text <->
    exists pre w post, text = pre ++ w ++ post /\ matches U re w.
Proof.
  intros re text. split.
  - intros (i & Hi & w & post & Hs & Hw).
    exists (firstn i text), w, post. rewrite <- Hs, firstn_skipn. auto.
  - intros (pre & w & post & -> & Hw). exists (length pre). split.
    + rewrite length_app. lia.
    + exists w, post. split; [|exact Hw].
      rewrite skipn_app, Nat.sub_diag, skipn_all. reflexivity.
Qed.

Lemma matches_lits : forall label re w,
    matches U (map (fun c => One (Lit c)) label ++ re) w <->
    exists lab w', w = lab ++ w' /\ ci_eq U label lab /\ matches U re w'.
Proof.
  induction label as [|p label IH]; intros re w; simpl.
  - split.
    + intros H. exists [], w. repeat split; [constructor|exact H].
    + intros (lab & w' & -> & Hl & Hw). inversion Hl; subst. exact Hw.
  - split.
    + intros (c & w1 & -> & Hc & Hw). apply IH in Hw.
      destruct Hw as (lab & w' & -> & Hl & Hw).
      exists (c :: lab), w'. repeat split; [constructor; assumption|exact Hw].
    + intros (lab & w' & -> & Hl & Hw). inversion Hl as [|? c ? lab' Hc Hl']; subst.
      exists c, (lab' ++ w'). repeat split; [exact Hc|]. apply IH. eauto.
Qed.

Lemma colon_or_space_match : forall c,
    cset_match U colon_or_space c = (N.eqb c 58 || isspace c).
Proof. intros c. simpl. now rewrite orb_false_r. Qed.

Lemma nonempty_length : forall (l : pystr), l <> [] <-> (1 <= length l)%nat.
Proof. intros [|x l]; simpl; split; intros; try congruence; lia. Qed.

Lemma matches_value : forall w,
    matches U [Repeat 1 colon_or_space; GroupRepeat 1 (Cat CatDigit)] w <->
    exists seps ds,
      w = seps ++ ds /\ seps <> []
      /\ Forall (fun c => N.eqb c 58 || isspace c = true) seps
      /\ ds <> [] /\ all_decimal U ds.
Proof.
  intros w. simpl. split.
  - intros (seps & w1 & -> & Hs & Hl & ds & w2 & -> & Hd & Hl2 & ->).
    exists seps, ds. rewrite app_nil_r. repeat split.
    + now apply nonempty_length.
    + eapply Forall_impl; [|exact Hs]. intros c Hc. simpl in Hc.
      now rewrite orb_false_r in Hc.
    + now apply nonempty_length.
    + exact Hd.
  - intros (seps & ds & -> & Hn & Hs & Hn2 & Hd).
    exists seps, ds. repeat split.
    + eapply Forall_impl; [|exact Hs]. intros c Hc. simpl.
      now rewrite orb_false_r.
    + now apply nonempty_length.
    + exists ds, []. rewrite app_nil_r. repeat split; auto.
      now apply nonempty_length.
Qed.

(** A field pattern occurs in a text exactly when the text holds the
    labeled integer field. *)
Lemma field_re_occurs : forall label suffix text,
    occurs U (field_re label suffix) text <-> labeled_field U label suffix text.
Proof.
  intros label suffix text. rewrite occurs_split. unfold field_re, labeled_field.
  split.
  - intros (pre & w & post & -> & Hw). apply matches_lits in Hw.
    destruct Hw as (lab & w1 & -> & Hlab & Hw). destruct suffix; simpl in Hw.
    + destruct Hw as (suf & w2 & -> & Hsuf & _ & Hw).
      change (matches U [Repeat 1 colon_or_space; GroupRepeat 1 (Cat CatDigit)] w2) in Hw.
      apply matches_value in Hw. destruct Hw as (seps & ds & -> & Hv).
      exists pre, lab, suf, seps, ds, post. rewrite <- !app_assoc.
      split; [reflexivity|]. split; [exact Hlab|]. split; [exact Hsuf|exact Hv].
    + change (matches U [Repeat 1 colon_or_space; GroupRepeat 1 (Cat CatDigit)] w1) in Hw.
      apply matches_value in Hw. destruct Hw as (seps & ds & -> & Hv).
      exists pre, lab, [], seps, ds, post. rewrite <- !app_assoc.
      split; [reflexivity|]. split; [exact Hlab|]. split; [reflexivity|exact Hv].
  - intros (pre & lab & suf & seps & ds & post & -> & Hlab & Hsuf & Hv).
    exists pre, (lab ++ suf ++ seps ++ ds), post. rewrite <- !app_assoc.
    split; [reflexivity|]. apply matches_lits.
    exists lab, (suf ++ seps ++ ds). split; [reflexivity|]. split; [exact Hlab|].
    assert (Hval : matches U [Repeat 1 colon_or_space; GroupRepeat 1 (Cat CatDigit)]
                           (seps ++ ds)).
    { apply matches_value. exists seps, ds. split; [reflexivity|exact Hv]. }
    destruct suffix.
    + simpl. exists suf, (seps ++ ds). split; [reflexivity|].
      split; [exact Hsuf|]. split; [lia|]. exact Hval.
    + subst suf. exact Hval.
Qed.

Lemma protein_search : forall text,
    (exists m, re_search U protein_re text = Some m)
    <-> labeled_field U (py "Protein") false text.
Proof.
  intros. rewrite re_search_some.
  change protein_re with (field_re (py "Protein") false). apply field_re_occurs.
Qed.

Lemma carb_search : forall text,
    (exists m, re_search U carb_re text = Some m)
    <-> labeled_field U (py "Carb") true text.
Proof.
  intros. rewrite re_search_some.
  change carb_re with (field_re (py "Carb") true). apply field_re_occurs.
Qed.

Lemma fat_search : forall text,
    (exists m, re_search U fat_re text = Some m)
    <-> labeled_field U (py "Fat") true text.
Proof.
  intros. rewrite re_search_some.
  change fat_re with (field_re (py "Fat") true). apply field_re_occurs.
Qed.
End MacroFacts.

(** ** FactExtractor: the calorie figure *)

Ltac boolprop :=
  repeat match goal with
         | H : _ && _ = true |- _ => apply andb_true_iff in H; destruct H
         | H : _ || _ = true |- _ => apply orb_true_iff in H; destruct H
         | H : _ || _ = false |- _ => apply orb_false_iff in H; destruct H
         | H : N.leb _ _ = true |- _ => apply N.leb_le in H
         | H : N.leb _ _ = false |- _ => apply N.leb_gt in H
         | H : N.ltb _ _ = true |- _ => apply N.ltb_lt in H
         | H : N.ltb _ _ = false |- _ => apply N.ltb_ge in H
         | H : N.eqb _ _ = true |- _ => apply N.eqb_eq in H
         | H : N.eqb _ _ = false |- _ => apply N.eqb_neq in H
         end.

Ltac written_chars :=
  match goal with
  | |- Forall _ ?l => let l' := eval vm_compute in l in change l with l'
  end;
  repeat (apply Forall_cons;
          [unfold written_digit, written_word, written_space, white_space;
           cbn [In]; lia|]);
  apply Forall_nil.

Section CalorieFacts.
Variable U : UCD.

Lemma match_here_groupless : forall re g s g' rest,
    groupless re = true ->
    match_here U re g s = Some (g', rest) -> g' = g.
Proof.
  induction re as [|n re IH]; intros g s g' rest Hg H; simpl in H.
  - now inversion H.
  - simpl in Hg. destruct n as [a|min a|min a]; try discriminate.
    + destruct s as [|c s]; [discriminate|].
      destruct (cset_match U a c); [|discriminate]. eauto.
    + apply greedy_sound in H. destruct H as (u & r & _ & _ & _ & Hk). eauto.
Qed.

Lemma matches_kcal : forall w,
    matches U kcal_re w <->
    exists ds ws kc,
      w = ds ++ ws ++ kc /\ ds <> [] /\ all_decimal U ds /\ all_space ws
      /\ ci_eq U (py "kcal") kc.
Proof.
  intros w. unfold kcal_re, lits.
  change (matches U ([GroupRepeat 1 (Cat CatDigit); Repeat 0 (Cat CatSpace)]
                     ++ map (fun c => One (Lit c)) (py "kcal")) w)
    with (exists u w', w = u ++ w' /\ Forall (fun c => isdecimal U c = true) u
                       /\ (1 <= length u)%nat
                       /\ exists u2 w2, w' = u2 ++ w2
                            /\ Forall (fun c => isspace c = true) u2
                            /\ (0 <= length u2)%nat
                            /\ matches U (map (fun c => One (Lit c)) (py "kcal")) w2).
  split.
  - intros (ds & w1 & -> & Hd & Hl & ws & kc & -> & Hs & _ & Hk).
    rewrite <- (app_nil_r (map _ _)) in Hk. apply matches_lits in Hk.
    destruct Hk as (lab & w3 & -> & Hlab & Hw3). simpl in Hw3. subst w3.
    rewrite app_nil_r. exists ds, ws, lab. repeat split; auto.
    now apply nonempty_length.
  - intros (ds & ws & kc & -> & Hn & Hd & Hs & Hk).
    exists ds, (ws ++ kc). repeat split; auto.
    + now apply nonempty_length.
    + exists ws, kc. repeat split; auto; [lia|].
      rewrite <- (app_nil_r (map _ _)). apply matches_lits.
      exists kc, []. rewrite app_nil_r. simpl. auto.
Qed.

Lemma kcal_starts_at_iff : forall text i,
    kcal_starts_at U text i <-> occurs_at U kcal_re text i.
Proof.
  intros text i. unfold kcal_starts_at, kcal_occurrence, occurs_at. split.
  - intros (pre & ds & <- & ws & kc & post & -> & Hv). split.
    + rewrite length_app. lia.
    + exists (ds ++ ws ++ kc), post. split.
      * rewrite skipn_app, Nat.sub_diag, skipn_all. simpl.
        now rewrite <- !app_assoc.
      * apply matches_kcal. exists ds, ws, kc. auto.
  - intros (Hi & w & post & Hs & Hw). apply matches_kcal in Hw.
    destruct Hw as (ds & ws & kc & -> & Hv).
    exists (firstn i text), ds. split.
    + apply firstn_length_le. exact Hi.
    + exists ws, kc, post. split; [|exact Hv].
      rewrite <- (firstn_skipn i text) at 1. rewrite Hs.
      now rewrite <- !app_assoc.
Qed.

Lemma no_match_before_spec : forall re text n,
    (n <= length text)%nat ->
    (no_match_before U re text n = true <->
     forall i, (i < n)%nat -> ~ occurs_at U re text i).
Proof.
  intros re text n Hn. unfold no_match_before. rewrite forallb_forall. split.
  - intros H i Hi Ho. apply occurs_at_iff in Ho. destruct Ho as [_ Ho].
    specialize (H i). rewrite in_seq in H. specialize (H ltac:(lia)).
    destruct (match_here U re None (skipn i text)); [discriminate|congruence].
  - intros H i Hi. apply in_seq in Hi.
    destruct (match_here U re None (skipn i text)) eqn:E; [|reflexivity].
    exfalso. apply (H i); [lia|]. apply occurs_at_iff. split; [lia|congruence].
Qed.

Lemma not_occurs_none : forall re text i,
    (i <= length text)%nat -> ~ occurs_at U re text i ->
    match_here U re None (skipn i text) = None.
Proof.
  intros re text i Hi H.
  destruct (match_here U re None (skipn i text)) eqn:E; [|reflexivity].
  exfalso. apply H, occurs_at_iff. split; [exact Hi|congruence].
Qed.

(** What a successful search returns: the first position with a match
    and the match found there. *)
Lemma search_from_some : forall re s pos m,
    search_from U re pos s = Some m ->
    exists pre s' g rest,
      s = pre ++ s'
      /\ (forall j, (j < length pre)%nat ->
                    match_here U re None (skipn j s) = None)
      /\ match_here U re None s' = Some (g, rest)
      /\ m_start m = (pos + length pre)%nat /\ m_group1 m = g.
Proof.
  induction s as [|c s IH]; intros pos m H; simpl in H.
  - destruct (match_here U re None []) as [[g rest]|] eqn:E; [|discriminate].
    inversion H; subst; clear H. exists [], [], g, rest. simpl.
    repeat split; auto; intros; lia.
  - destruct (match_here U re None (c :: s)) as [[g rest]|] eqn:E.
    + inversion H; subst; clear H. exists [], (c :: s), g, rest. simpl.
      repeat split; auto; intros; lia.
    + destruct (IH _ _ H) as (pre & s' & g & rest & -> & Hpre & Hm & Hst & Hg).
      exists (c :: pre), s', g, rest. simpl. repeat split; auto; [|lia].
      intros [|j] Hj; [exact E|]. simpl. apply Hpre. lia.
Qed.

Hypothesis Hwf : ucd_wf U.

Lemma space_not_decimal : forall c, isspace c = true -> isdecimal U c = false.
Proof.
  intros c Hs. unfold isdecimal. destruct (N.ltb c 256) eqn:E.
  - unfold isspace, between in Hs. unfold between.
    destruct (N.leb 48 c && N.leb c 57) eqn:D; [|reflexivity].
    boolprop; lia.
  - destruct (ucd_isdecimal U c) eqn:D; [|reflexivity].
    destruct (Hwf _ D) as [H _]. congruence.
Qed.

Lemma k_not_decimal : forall c, lit_match U 107 c = true -> isdecimal U c = false.
Proof.
  intros c Hk. unfold lit_match in Hk.
  change (tolower U 107) with 107 in Hk. simpl in Hk.
  rewrite orb_false_r in Hk. apply N.eqb_eq in Hk.
  unfold tolower in Hk. unfold isdecimal. destruct (N.ltb c 256) eqn:E.
  - unfold between in *.
    destruct (N.leb 48 c && N.leb c 57) eqn:D; [|reflexivity].
    destruct (N.leb 65 c && N.leb c 90 || N.leb 192 c && N.leb c 214
              || N.leb 216 c && N.leb c 222) eqn:F; boolprop; lia.
  - destruct (ucd_isdecimal U c) eqn:D; [|reflexivity].
    destruct (Hwf _ D) as [_ H]. contradiction.
Qed.

(** At the start of an occurrence the matcher captures its digits. *)
Lemma kcal_match_here : forall ds ws kc post,
    ds <> [] -> all_decimal U ds -> all_space ws -> ci_eq U (py "kcal") kc ->
    exists rest,
      match_here U kcal_re None (ds ++ ws ++ kc ++ post) = Some (Some ds, rest).
Proof.
  intros ds ws kc post Hn Hd Hs Hk.
  set (tail := Repeat 0 (Cat CatSpace) :: lits "kcal").
  assert (Ht : exists rest,
             match_here U tail (Some ds) (ws ++ kc ++ post) = Some (Some ds, rest)).
  { destruct (match_here U tail (Some ds) (ws ++ kc ++ post)) as [[g rest]|] eqn:E.
    - exists rest. apply match_here_groupless in E; [now subst|reflexivity].
    - exfalso. rewrite app_assoc in E. revert E. apply match_here_complete.
      subst tail. simpl. exists ws, kc. repeat split; auto; [lia|].
      assert (Hm : matches U (map (fun c => One (Lit c)) (py "kcal") ++ []) kc).
      { apply matches_lits. exists kc, []. rewrite app_nil_r. simpl. auto. }
      exact Hm. }
  destruct Ht as (rest & Ht). exists rest.
  change (match_here U kcal_re None (ds ++ ws ++ kc ++ post))
    with (greedy (cset_match U (Cat CatDigit)) 1
                 (fun taken r => match_here U tail (Some taken) r)
                 [] (ds ++ ws ++ kc ++ post)).
  apply greedy_longest; auto.
  - intros c rest' E. simpl.
    destruct ws as [|w ws].
    + inversion Hk as [|p x l l' Hp Hrest]; subst. simpl in E.
      inversion E; subst. now apply k_not_decimal.
    + simpl in E. inversion E; subst. inversion Hs; subst.
      now apply space_not_decimal.
  - simpl. now apply nonempty_length.
Qed.

Lemma first_kcal_search : forall text pre ds,
    kcal_occurrence U text pre ds ->
    (forall i, (i < length pre)%nat -> ~ kcal_starts_at U text i) ->
    exists m, re_search U kcal_re text = Some m
              /\ m_start m = length pre /\ m_group1 m = Some ds.
Proof.
  intros text pre ds (ws & kc & post & -> & Hn & Hd & Hs & Hk) Hfirst.
  destruct (kcal_match_here ds ws kc post Hn Hd Hs Hk) as (rest & Hm).
  unfold re_search. erewrite search_from_first; [|intros j Hj|exact Hm].
  - eexists. repeat split.
  - apply not_occurs_none.
    + rewrite length_app. lia.
    + rewrite <- kcal_starts_at_iff. now apply Hfirst.
Qed.

Lemma kcal_search_cases : forall text,
    (exists pre ds m,
        kcal_occurrence U text pre ds
        /\ (forall i, (i < length pre)%nat -> ~ kcal_starts_at U text i)
        /\ re_search U kcal_re text = Some m /\ m_group1 m = Some ds)
    \/ ((forall i, ~ kcal_starts_at U text i)
        /\ re_search U kcal_re text = None).
Proof.
  intros text. destruct (re_search U kcal_re text) as [m|] eqn:E.
  - left. unfold re_search in E. apply search_from_some in E.
    destruct E as (pre & s' & g & rest & -> & Hpre & Hm & _ & Hg).
    destruct (match_here_sound U _ _ _ _ _ Hm) as (w & -> & Hw).
    apply matches_kcal in Hw. destruct Hw as (ds & ws & kc & -> & Hn & Hd & Hs & Hk).
    destruct (kcal_match_here ds ws kc rest Hn Hd Hs Hk) as (rest' & Hm').
    rewrite <- !app_assoc in Hm. rewrite Hm in Hm'. injection Hm' as Eg Er.
    exists pre, ds, m. split; [|split; [|split]].
    + exists ws, kc, rest. rewrite <- !app_assoc. repeat split; auto.
    + intros i Hi Hs'. apply kcal_starts_at_iff, occurs_at_iff in Hs'.
      destruct Hs' as [_ Hs']. apply Hs', Hpre, Hi.
    + reflexivity.
    + now rewrite Hg.
  - right. split; [|reflexivity]. intros i Hi.
    apply re_search_none in E. apply E. exists i.
    now apply kcal_starts_at_iff.
Qed.
End CalorieFacts.

Lemma latin1_wf : ucd_wf latin1.
Proof. intros c H. discriminate H. Qed.

Lemma tolower_ascii : forall (U : UCD) x, x < 192 -> tolower U x = ascii_lower x.
Proof.
  intros U x H. unfold tolower, ascii_lower.
  rewrite (proj2 (N.ltb_lt x 256)) by lia.
  assert (A : between 192 214 x = false).
  { unfold between. apply andb_false_iff. left. apply N.leb_gt. lia. }
  assert (B : between 216 222 x = false).
  { unfold between. apply andb_false_iff. left. apply N.leb_gt. lia. }
  now rewrite A, B, !orb_false_r.
Qed.

Lemma ascii_lower_letter : forall p,
    ascii_letter p = true -> 97 <= ascii_lower p /\ ascii_lower p <= 122.
Proof.
  intros p H. unfold ascii_letter in H. unfold ascii_lower.
  destruct (between 65 90 p) eqn:E; unfold between in *; boolprop; lia.
Qed.

Lemma ascii_lower_inv : forall c lo,
    97 <= lo -> lo <= 122 -> ascii_lower c = lo -> c < 192.
Proof.
  intros c lo L H E. unfold ascii_lower in E.
  destruct (between 65 90 c) eqn:B; unfold between in *; boolprop; lia.
Qed.

(** A letter of a pattern matches both of its cases ... *)
Lemma lit_match_spelled : forall (U : UCD) p c,
    ascii_letter p = true ->
    ascii_lower c = ascii_lower p -> lit_match U p c = true.
Proof.
  intros U p c Hp E. destruct (ascii_lower_letter p Hp) as [L H].
  assert (Pc : c < 192) by (apply (ascii_lower_inv c (ascii_lower p)); auto).
  assert (Pp : p < 192).
  { unfold ascii_letter, between in Hp. boolprop; lia. }
  unfold lit_match. cbn [existsb].
  rewrite (tolower_ascii U c Pc), (tolower_ascii U p Pp), E, N.eqb_refl.
  reflexivity.
Qed.

(** ... and, in the Latin-1 range, nothing else. *)
Lemma lit_match_latin1 : forall (U : UCD) p c,
    ascii_letter p = true -> c < 256 ->
    lit_match U p c = true -> ascii_lower c = ascii_lower p.
Proof.
  intros U p c Hp Hc H. destruct (ascii_lower_letter p Hp) as [L Hi].
  assert (Pp : p < 192).
  { unfold ascii_letter, between in Hp. boolprop; lia. }
  unfold lit_match in H. rewrite (tolower_ascii U p Pp) in H.
  assert (T : tolower U c < 256).
  { unfold tolower. rewrite (proj2 (N.ltb_lt c 256) Hc).
    destruct (between 65 90 c || between 192 214 c || between 216 222 c) eqn:B;
      [|exact Hc].
    unfold between in B. boolprop; lia. }
  assert (E : tolower U c = ascii_lower p).
  { cbn [existsb] in H. apply orb_true_iff in H. destruct H as [H|H].
    - now apply N.eqb_eq in H.
    - exfalso. unfold extra_cases in H.
      destruct (N.eqb (ascii_lower p) 105);
        [cbn [existsb] in H; rewrite orb_false_r in H; apply N.eqb_eq in H; lia|].
      destruct (N.eqb (ascii_lower p) 115);
        [cbn [existsb] in H; rewrite orb_false_r in H; apply N.eqb_eq in H; lia|].
      destruct (N.eqb (ascii_lower p) 181);
        [cbn [existsb] in H; rewrite orb_false_r in H; apply N.eqb_eq in H; lia|].
      discriminate H. }
  assert (Pc : c < 192).
  { unfold tolower in E. rewrite (proj2 (N.ltb_lt c 256) Hc) in E.
    destruct (between 65 90 c || between 192 214 c || between 216 222 c) eqn:B;
      unfold between in B; [boolprop; lia|lia]. }
  now rewrite <- (tolower_ascii U c Pc).
Qed.

Lemma spelled_ci_eq : forall (U : UCD) word lab,
    forallb ascii_letter word = true -> spelled word lab -> ci_eq U word lab.
Proof.
  intros U word. unfold spelled, ci_eq.
  induction word as [|p word IH]; intros lab Hw E.
  - destruct lab; [constructor|discriminate].
  - destruct lab as [|c lab]; [discriminate|].
    cbn [map] in E. injection E as Ec El.
    cbn [forallb] in Hw. apply andb_true_iff in Hw. destruct Hw as [Hp Hw].
    constructor; [now apply lit_match_spelled|now apply IH].
Qed.

Lemma ci_eq_spelled : forall (U : UCD) word lab,
    forallb ascii_letter word = true -> latin1_text lab ->
    ci_eq U word lab -> spelled word lab.
Proof.
  intros U word lab Hw Hl H. unfold spelled.
  induction H as [|p c word lab Hc _ IH]; [reflexivity|].
  cbn [forallb] in Hw. apply andb_true_iff in Hw. destruct Hw as [Hp Hw].
  inversion Hl; subst. cbn [map].
  rewrite (lit_match_latin1 U p c Hp) by assumption. f_equal. now apply IH.
Qed.

Lemma latin1_text_app : forall a b,
    latin1_text (a ++ b) <-> latin1_text a /\ latin1_text b.
Proof. intros a b. apply Forall_app. Qed.

Lemma written_space_iff : forall c, written_space c <-> isspace c = true.
Proof.
  intros c. unfold written_space, white_space, isspace, between. cbn [In].
  rewrite !orb_true_iff, !andb_true_iff, !N.eqb_eq, !N.leb_le. lia.
Qed.

Lemma written_digit_decimal : forall (U : UCD) c,
    written_digit c -> isdecimal U c = true.
Proof.
  intros U c [L H]. unfold isdecimal, between.
  rewrite (proj2 (N.ltb_lt c 256)) by lia.
  apply andb_true_iff. split; apply N.leb_le; lia.
Qed.

Lemma decimal_written_digit : forall (U : UCD) c,
    c < 256 -> isdecimal U c = true -> written_digit c.
Proof.
  intros U c Hc H. unfold isdecimal, between in H.
  rewrite (proj2 (N.ltb_lt c 256) Hc) in H.
  apply andb_true_iff in H. destruct H as [L H].
  apply N.leb_le in L, H. split; assumption.
Qed.




Lemma Forall_latin1 : forall (P Q : char -> Prop) l,
    latin1_text l -> (forall c, c < 256 -> P c -> Q c) ->
    Forall P l -> Forall Q l.
Proof.
  intros P Q l Hl H F. induction F as [|c l Hc _ IH]; [constructor|].
  inversion Hl; subst. constructor; auto.
Qed.

(** No captured group is longer than the text searched. *)
Lemma match_here_group_length : forall (U : UCD) re g s g' rest,
    match_here U re g s = Some (g', rest) ->
    g' = g \/ exists ds, g' = Some ds /\ (length ds <= length s)%nat.
Proof.
  intros U. induction re as [|n re IH]; intros g s g' rest H; cbn [match_here] in H.
  - left. now inversion H.
  - destruct n as [a|min a|min a].
    + destruct s as [|c s]; [discriminate|].
      destruct (cset_match U a c); [|discriminate].
      destruct (IH _ _ _ _ H) as [E|(ds & E & L)]; [now left|right].
      exists ds. split; [exact E|]. cbn [length]. lia.
    + apply greedy_sound in H. destruct H as (u & r & -> & _ & _ & Hk).
      destruct (IH _ _ _ _ Hk) as [E|(ds & E & L)]; [now left|right].
      exists ds. split; [exact E|]. rewrite length_app. lia.
    + apply greedy_sound in H. destruct H as (u & r & -> & _ & _ & Hk).
      cbn [app] in Hk. right.
      destruct (IH _ _ _ _ Hk) as [E|(ds & E & L)].
      * exists u. split; [exact E|]. rewrite length_app. lia.
      * exists ds. split; [exact E|]. rewrite length_app. lia.
Qed.

Lemma search_group_length : forall (U : UCD) re text m,
    re_search U re text = Some m -> (length (group1 m) <= length text)%nat.
Proof.
  intros U re text m H. unfold re_search in H. apply search_from_some in H.
  destruct H as (pre & s' & g & rest & -> & _ & Hm & _ & Hg).
  unfold group1. rewrite Hg. rewrite length_app.
  destruct (match_here_group_length U _ _ _ _ _ Hm) as [->|(ds & -> & L)].
  - cbn. lia.
  - lia.
Qed.

Lemma py_int_raises : forall (U : UCD) limit s,
    py_int U limit s = Raises <-> int_refused limit (length s) = true.
Proof.
  intros U limit s. unfold py_int.
  destruct (int_refused limit (length s)); split; congruence.
Qed.

Lemma int_refused_iff : forall limit n,
    int_refused limit n = true <-> (0 < limit /\ limit < n /\ 640 < n)%nat.
Proof.
  intros limit n. unfold int_refused.
  rewrite !andb_true_iff, !Nat.ltb_lt. tauto.
Qed.

Lemma int_accepted_iff : forall limit n,
    int_refused limit n = false <-> (n <= 640 \/ limit = 0 \/ n <= limit)%nat.
Proof.
  intros limit n. destruct (int_refused limit n) eqn:E.
  - apply int_refused_iff in E. split; [discriminate|lia].
  - split; [intros _|reflexivity].
    destruct (Nat.le_gt_cases n 640) as [H|H]; [now left|right].
    destruct (Nat.eq_dec limit 0) as [H0|H0]; [now left|right].
    destruct (Nat.le_gt_cases n limit) as [H1|H1]; [exact H1|].
    assert (K : int_refused limit n = true) by (apply int_refused_iff; lia).
    congruence.
Qed.

Lemma decimal_value_snoc : forall (U : UCD) ds d,
    decimal_value U (ds ++ [d]) = 10 * decimal_value U ds + digit_value U d.
Proof. intros U ds d. unfold decimal_value. now rewrite fold_left_app. Qed.

(** C2, as the program has it.  [extract_calories] is [int()] of the
    digits of the first occurrence of digits, optional white space and
    "kcal" in any case; later occurrences play no part; it returns 0 when
    there is no occurrence.  [int()] returns the number the digits denote,
    except that it raises ValueError for a run of more than 640 digits that
    is longer than the interpreter's limit (when the limit is not 0).  Every
    text is in one of the two cases.  "Total Calories: 250 kcal" gives 250,
    also with KCAL or Kcal, and "no calorie info" gives 0. *)
Theorem extract_calories_first_kcal :
  forall (U : UCD) (limit : nat) (text : pystr),
    ucd_wf U ->
    (forall pre ds,
        kcal_occurrence U text pre ds ->
        (forall i, (i < length pre)%nat -> ~ kcal_starts_at U text i) ->
        extract_calories U limit text = py_int U limit ds
        /\ ((length ds <= 640 \/ limit = 0 \/ length ds <= limit)%nat ->
            extract_calories U limit text = Returns (decimal_value U ds))
        /\ ((0 < limit /\ limit < length ds /\ 640 < length ds)%nat ->
            extract_calories U limit text = Raises))
    /\ ((forall i, ~ kcal_starts_at U text i) ->
        extract_calories U limit text = Returns 0)
    /\ ((exists pre ds,
            kcal_occurrence U text pre ds
            /\ forall i, (i < length pre)%nat -> ~ kcal_starts_at U text i)
        \/ (forall i, ~ kcal_starts_at U text i))
    /\ (forall pre ds, kcal_written text pre ds -> kcal_occurrence U text pre ds)
    /\ (latin1_text text ->
        forall pre ds, kcal_occurrence U text pre ds -> kcal_written text pre ds)
    /\ (extract_calories U limit text = Raises ->
        (0 < limit /\ limit < length text /\ 640 < length text)%nat)
    /\ extract_calories U limit (py "Total Calories: 250 kcal") = Returns 250
    /\ extract_calories U limit (py "Total Calories: 250 KCAL") = Returns 250
    /\ extract_calories U limit (py "Total Calories: 250Kcal") = Returns 250
    /\ extract_calories U limit (py "no calorie info") = Returns 0.
Proof.
  intros U limit text Hwf.
  split; [|split; [|split; [|split; [|split; [|split]]]]].
  - intros pre ds Hocc Hfirst.
    destruct (first_kcal_search U Hwf text pre ds Hocc Hfirst) as (m & Hm & _ & Hg).
    assert (E : extract_calories U limit text = py_int U limit ds).
    { unfold extract_calories, group1. now rewrite Hm, Hg. }
    split; [exact E|]. rewrite E. unfold py_int. split; intros H.
    + apply int_accepted_iff in H. now rewrite H.
    + apply int_refused_iff in H. now rewrite H.
  - intros Hnone. unfold extract_calories.
    destruct (re_search U kcal_re text) as [m|] eqn:E; [|reflexivity].
    exfalso. assert (Ho : occurs U kcal_re text) by (apply re_search_some; eauto).
    destruct Ho as (i & Hi). apply (Hnone i). now apply kcal_starts_at_iff.
  - destruct (kcal_search_cases U Hwf text) as [(pre & ds & m & Ho & Hf & _)|[Hn _]].
    + left. eauto.
    + right. exact Hn.
  - intros pre ds (ws & kc & post & E & Hn & Hd & Hs & Hk).
    exists ws, kc, post. split; [exact E|]. split; [exact Hn|].
    split; [|split].
    + eapply Forall_impl; [|exact Hd]. intros c. apply written_digit_decimal.
    + eapply Forall_impl; [|exact Hs]. intros c. apply written_space_iff.
    + now apply spelled_ci_eq.
  - intros Hl pre ds (ws & kc & post & E & Hn & Hd & Hs & Hk).
    subst text. apply latin1_text_app in Hl. destruct Hl as [_ Hl].
    apply latin1_text_app in Hl. destruct Hl as [Lds Hl].
    apply latin1_text_app in Hl. destruct Hl as [_ Hl].
    apply latin1_text_app in Hl. destruct Hl as [Lkc _].
    exists ws, kc, post. split; [reflexivity|]. split; [exact Hn|].
    split; [|split].
    + apply (Forall_latin1 _ _ ds Lds (decimal_written_digit U) Hd).
    + eapply Forall_impl; [|exact Hs]. intros c. apply written_space_iff.
    + apply (ci_eq_spelled U); [reflexivity|exact Lkc|exact Hk].
  - intros H. unfold extract_calories in H.
    destruct (re_search U kcal_re text) as [m|] eqn:E; [|discriminate].
    apply py_int_raises, int_refused_iff in H.
    pose proof (search_group_length U _ _ _ E). lia.
  - repeat split; vm_compute; reflexivity.
Qed.

Lemma extract_calories_first_kcal_witness :
  ucd_wf latin1
  /\ extract_calories latin1 DEFAULT_MAX_STR_DIGITS (py "Total Calories: 250 kcal")
     = Returns 250.
Proof.
  split; [exact latin1_wf|].
  apply (extract_calories_first_kcal latin1 DEFAULT_MAX_STR_DIGITS
           (py "Total Calories: 250 kcal") latin1_wf).
Defined.

(** C2, as stated, fails: with the interpreter's default limit, a text
    whose first (and only) occurrence has 4301 digits before "kcal" makes
    [int()] raise, so no integer is returned. *)
Lemma extract_calories_digit_limit :
  kcal_written (too_many_digits ++ py " kcal") [] too_many_digits
  /\ kcal_occurrence latin1 (too_many_digits ++ py " kcal") [] too_many_digits
  /\ (forall i, (i < length (@nil char))%nat ->
                ~ kcal_starts_at latin1 (too_many_digits ++ py " kcal") i)
  /\ length too_many_digits = 4301%nat
  /\ extract_calories latin1 DEFAULT_MAX_STR_DIGITS (too_many_digits ++ py " kcal")
     = Raises
  /\ forall n, extract_calories latin1 DEFAULT_MAX_STR_DIGITS
                 (too_many_digits ++ py " kcal") <> Returns n.
Proof.
  assert (E : extract_calories latin1 DEFAULT_MAX_STR_DIGITS
                (too_many_digits ++ py " kcal") = Raises)
    by (vm_compute; reflexivity).
  split; [|split].
  - exists (py " "), (py "kcal"), []. split; [reflexivity|].
    split; [discriminate|]. split.
    + unfold too_many_digits. apply Forall_forall.
      intros c Hc. apply repeat_spec in Hc. subst c. unfold written_digit. lia.
    + split; [written_chars|reflexivity].
  - exists (py " "), (py "kcal"), []. split; [reflexivity|].
    split; [discriminate|]. split.
    + unfold all_decimal, too_many_digits. apply Forall_forall.
      intros c Hc. apply repeat_spec in Hc. subst c. reflexivity.
    + split; repeat constructor.
  - split; [intros i Hi; inversion Hi|]. split; [reflexivity|].
    split; [exact E|]. intros n. rewrite E. discriminate.
Qed.

(** C10.  A decimal calorie value: when the first match falls in
    "250.5 kcal", the digits before "kcal" are those after the decimal point,
    and [extract_calories] returns 5, neither 250 nor 0. *)
Theorem extract_calories_decimal_point :
  forall (U : UCD) (limit : nat) (pre post : pystr),
    (forall i, (i < length pre)%nat ->
               ~ kcal_starts_at U (pre ++ py "250.5 kcal" ++ post) i) ->
    extract_calories U limit (pre ++ py "250.5 kcal" ++ post) = Returns 5
    /\ extract_calories U limit (pre ++ py "250.5 kcal" ++ post) <> Returns 250
    /\ extract_calories U limit (pre ++ py "250.5 kcal" ++ post) <> Returns 0.
Proof.
  intros U limit pre post Hfirst.
  assert (E : extract_calories U limit (pre ++ py "250.5 kcal" ++ post) = Returns 5).
  { unfold extract_calories, re_search.
    assert (Hm : match_here U kcal_re None (py "5 kcal" ++ post)
                 = Some (Some [53], post)) by (vm_compute; reflexivity).
    assert (Hsplit : pre ++ py "250.5 kcal" ++ post
                     = (pre ++ py "250.") ++ py "5 kcal" ++ post)
      by (rewrite <- app_assoc; reflexivity).
    rewrite Hsplit.
    rewrite (@search_from_first U kcal_re (pre ++ py "250.")
               (py "5 kcal" ++ post) 0%nat (Some [53]) post);
      [ | | exact Hm].
    - vm_compute. reflexivity.
    - intros j Hj. rewrite <- Hsplit.
      destruct (Nat.lt_ge_cases j (length pre)) as [Hlt|Hge].
      + apply not_occurs_none.
        * rewrite length_app. lia.
        * rewrite <- kcal_starts_at_iff. now apply Hfirst.
      + rewrite length_app in Hj. change (length (py "250.")) with 4%nat in Hj.
        rewrite skipn_app, skipn_all2 by exact Hge. simpl app.
        remember (j - length pre)%nat as k eqn:Hk.
        assert (Hk4 : (k < 4)%nat) by lia.
        destruct k as [|[|[|[|k]]]]; try lia; vm_compute; reflexivity. }
  rewrite E. repeat split; discriminate.
Qed.

Lemma extract_calories_decimal_point_witness :
  (forall i, (i < length (py "Total Calories: "))%nat ->
             ~ kcal_starts_at latin1
                 (py "Total Calories: " ++ py "250.5 kcal" ++ []) i)
  /\ extract_calories latin1 DEFAULT_MAX_STR_DIGITS
       (py "Total Calories: " ++ py "250.5 kcal" ++ []) = Returns 5.
Proof.
  assert (H : forall i, (i < length (py "Total Calories: "))%nat ->
                        ~ kcal_starts_at latin1
                            (py "Total Calories: " ++ py "250.5 kcal" ++ []) i).
  { intros i Hi Hs. apply kcal_starts_at_iff in Hs. revert i Hi Hs.
    apply (no_match_before_spec latin1 kcal_re
             (py "Total Calories: " ++ py "250.5 kcal" ++ []) 16).
    - vm_compute. lia.
    - vm_compute. reflexivity. }
  split; [exact H|].
  apply (extract_calories_decimal_point latin1 DEFAULT_MAX_STR_DIGITS
           (py "Total Calories: ") [] H).
Defined.

(** ** FactExtractor: the macro profile *)



Lemma extract_macros_cases : forall (U : UCD) (limit : nat) (text : pystr),
    (macros_present U text
     /\ (extract_macros U limit text = Raises
         \/ exists p c f,
             extract_macros U limit text = Returns (Some p, Some c, Some f)))
    \/ (~ macros_present U text
        /\ extract_macros U limit text = Returns (None, None, None)).
Proof.
  intros U limit text.
  pose proof (protein_search U text) as Hp.
  pose proof (carb_search U text) as Hc.
  pose proof (fat_search U text) as Hf.
  unfold macros_present, extract_macros.
  destruct (re_search U protein_re text) as [mp|].
  2:{ right. split; [|reflexivity]. intros (H & _). apply Hp in H.
      destruct H. discriminate. }
  destruct (re_search U carb_re text) as [mc|].
  2:{ right. split; [|reflexivity]. intros (_ & H & _). apply Hc in H.
      destruct H. discriminate. }
  destruct (re_search U fat_re text) as [mf|].
  2:{ right. split; [|reflexivity]. intros (_ & _ & H). apply Hf in H.
      destruct H. discriminate. }
  left. split.
  - repeat split; [apply Hp|apply Hc|apply Hf]; eauto.
  - destruct (py_int U limit (group1 mp)); [|now left].
    destruct (py_int U limit (group1 mc)); [|now left].
    destruct (py_int U limit (group1 mf)); [|now left].
    right. eauto.
Qed.




(** ** ChartBuilder *)

(** C6.  The chart is drawn exactly when the macro profile is present (all
    three values populated) and protein + carb + fat is positive, with the
    three values as slices labeled Protein, Carbs, Fat in that order; when
    the profile is absent or the sum is zero nothing is drawn. *)
Theorem pie_chart_iff : forall m : option N * option N * option N,
    ((exists img, pie_chart m = Some img)
     <-> exists p c f, m = (Some p, Some c, Some f) /\ 0 < p + c + f)
    /\ (forall p c f img,
           m = (Some p, Some c, Some f) -> pie_chart m = Some img ->
           pie_values img = [p; c; f]
           /\ pie_labels img = [py "Protein"; py "Carbs"; py "Fat"])
    /\ (pie_chart m = None
        <-> ~ exists p c f, m = (Some p, Some c, Some f) /\ 0 < p + c + f).
Proof.
  intros [[[p|] [c|]] [f|]]; simpl;
    try (split; [|split];
         [ split; [intros (img & H); discriminate H
                  |intros (p' & c' & f' & H & _); discriminate H]
         | intros p' c' f' img H; discriminate H
         | split; [intros _ (p' & c' & f' & H & _); discriminate H|reflexivity] ]).
  destruct (N.ltb 0 (p + c + f)) eqn:E.
  - apply N.ltb_lt in E. split; [|split].
    + split; [intros _; exists p, c, f; auto|intros _; eauto].
    + intros p' c' f' img H H'. inversion H; subst. inversion H'; subst.
      simpl. auto.
    + split; [discriminate|]. intros H. exfalso. apply H. exists p, c, f. auto.
  - apply N.ltb_ge in E. split; [|split].
    + split; [intros (img & H); discriminate H|].
      intros (p' & c' & f' & H & Hs). inversion H; subst. lia.
    + intros p' c' f' img _ H. discriminate H.
    + split; [|reflexivity]. intros _ (p' & c' & f' & H & Hs).
      inversion H; subst. lia.
Qed.

(** ** ReportRenderer *)

Lemma replace_char : forall x new s,
    replace [x] new s = flat_map (fun c => if N.eqb x c then new else [c]) s.
Proof.
  intros x new s. unfold replace. induction s as [|c s IH]; simpl; [reflexivity|].
  rewrite andb_true_r. destruct (N.eqb x c); simpl; now rewrite IH.
Qed.

Lemma flat_map_flat_map : forall (f g : char -> pystr) s,
    flat_map g (flat_map f s) = flat_map (fun c => flat_map g (f c)) s.
Proof.
  intros f g s. induction s as [|c s IH]; simpl; [reflexivity|].
  now rewrite flat_map_app, IH.
Qed.

(** The five replacements of [html.escape] amount to one pass. *)
Lemma html_escape_chars : forall s, html_escape s = flat_map escape_char s.
Proof.
  intros s. unfold html_escape. rewrite !replace_char, !flat_map_flat_map.
  apply flat_map_ext. intros c. unfold escape_char.
  destruct (N.eqb c 38) eqn:E1; [apply N.eqb_eq in E1; subst; reflexivity|].
  destruct (N.eqb c 60) eqn:E2; [apply N.eqb_eq in E2; subst; reflexivity|].
  destruct (N.eqb c 62) eqn:E3; [apply N.eqb_eq in E3; subst; reflexivity|].
  destruct (N.eqb c 34) eqn:E4; [apply N.eqb_eq in E4; subst; reflexivity|].
  destruct (N.eqb c 39) eqn:E5; [apply N.eqb_eq in E5; subst; reflexivity|].
  rewrite (N.eqb_sym 38 c), E1. cbn [flat_map app].
  rewrite (N.eqb_sym 60 c), E2. cbn [flat_map app].
  rewrite (N.eqb_sym 62 c), E3. cbn [flat_map app].
  rewrite (N.eqb_sym 34 c), E4. cbn [flat_map app].
  rewrite (N.eqb_sym 39 c), E5. reflexivity.
Qed.

Lemma replace_star : forall s, replace (py "*") [] s = filter not_star s.
Proof.
  intros s. change (py "*") with [STAR]. rewrite replace_char.
  induction s as [|c s IH]; cbn [flat_map filter]; [reflexivity|].
  rewrite IH. unfold not_star at 2. rewrite (N.eqb_sym c STAR).
  destruct (N.eqb STAR c); reflexivity.
Qed.

(** Dropping the double markers drops stars only. *)
Lemma replace_star_star : forall s,
    filter not_star (replace (py "**") [] s) = filter not_star s.
Proof.
  unfold replace. change (py "**") with [STAR; STAR].
  assert (H : forall s,
             filter not_star (replace_from [STAR; STAR] [] 0 s) = filter not_star s
             /\ forall c, filter not_star (replace_from [STAR; STAR] [] 0 (c :: s))
                          = filter not_star (c :: s)).
  { induction s as [|c s [IH1 IH2]].
    - split; [reflexivity|]. intros c. cbn [replace_from starts_with].
      rewrite andb_false_r. reflexivity.
    - split; [apply IH2|]. intros d.
      change (replace_from [STAR; STAR] [] 0 (d :: c :: s))
        with (if N.eqb STAR d && (N.eqb STAR c && true)
              then replace_from [STAR; STAR] [] 0 s
              else d :: replace_from [STAR; STAR] [] 0 (c :: s)).
      destruct (N.eqb STAR d) eqn:Ed.
      + apply N.eqb_eq in Ed. subst d.
        destruct (N.eqb STAR c) eqn:Ec.
        * apply N.eqb_eq in Ec. subst c. simpl andb. cbv iota.
          rewrite IH1. reflexivity.
        * simpl andb. cbv iota. cbn [filter]. rewrite IH2. reflexivity.
      + simpl andb. cbv iota. cbn [filter]. rewrite IH2. reflexivity. }
  intros s. apply H.
Qed.

Lemma clean_text_filter : forall text,
    clean_text text = filter not_star (flat_map escape_char text).
Proof.
  intros text. unfold clean_text.
  now rewrite replace_star, replace_star_star, html_escape_chars.
Qed.

Lemma filter_escape_commute : forall text,
    filter not_star (flat_map escape_char text)
    = flat_map escape_char (filter not_star text).
Proof.
  induction text as [|c text IH]; simpl; [reflexivity|].
  rewrite filter_app, IH. unfold not_star at 3.
  destruct (N.eqb c STAR) eqn:E.
  - apply N.eqb_eq in E. subst c. reflexivity.
  - simpl. f_equal. unfold escape_char.
    destruct (N.eqb c 38); [reflexivity|].
    destruct (N.eqb c 60); [reflexivity|].
    destruct (N.eqb c 62); [reflexivity|].
    destruct (N.eqb c 34); [reflexivity|].
    destruct (N.eqb c 39); [reflexivity|].
    simpl. unfold not_star. now rewrite E.
Qed.

Lemma escape_char_clean : forall c,
    not_star c = true ->
    Forall (fun x => x <> 60 /\ x <> 62 /\ x <> 34 /\ x <> 39 /\ x <> STAR)
           (escape_char c).
Proof.
  intros c Hc. unfold escape_char.
  destruct (N.eqb c 38) eqn:E1;
    [repeat constructor; discriminate|].
  destruct (N.eqb c 60) eqn:E2; [repeat constructor; discriminate|].
  destruct (N.eqb c 62) eqn:E3; [repeat constructor; discriminate|].
  destruct (N.eqb c 34) eqn:E4; [repeat constructor; discriminate|].
  destruct (N.eqb c 39) eqn:E5; [repeat constructor; discriminate|].
  unfold not_star in Hc. apply negb_true_iff in Hc.
  boolprop. repeat constructor; assumption.
Qed.

Lemma lstrip_blank : forall l, forallb isspace (lstrip l) = forallb isspace l.
Proof.
  induction l as [|c l IH]; cbn [lstrip forallb]; [reflexivity|].
  destruct (isspace c) eqn:E; cbn [forallb andb]; [exact IH|now rewrite E].
Qed.

Lemma lstrip_nil : forall l, truthy (lstrip l) = negb (forallb isspace l).
Proof.
  induction l as [|c l IH]; cbn [lstrip forallb]; [reflexivity|].
  destruct (isspace c) eqn:E; cbn [andb]; [exact IH|reflexivity].
Qed.

Lemma forallb_rev : forall (f : char -> bool) l,
    forallb f (rev l) = forallb f l.
Proof.
  intros f l. induction l as [|c l IH]; simpl; [reflexivity|].
  rewrite forallb_app, IH. simpl. rewrite andb_true_r. apply andb_comm.
Qed.

Lemma truthy_rev : forall l : pystr, truthy (rev l) = truthy l.
Proof.
  intros [|c l]; simpl; [reflexivity|]. destruct (rev l); reflexivity.
Qed.

(** [line.strip()] is falsy exactly for a blank line. *)
Lemma strip_blank : forall l, truthy (strip l) = negb (is_blank l).
Proof.
  intros l. unfold strip, rstrip, is_blank.
  now rewrite truthy_rev, lstrip_nil, forallb_rev, lstrip_blank.
Qed.

Lemma body_texts_app : forall a b,
    body_texts (a ++ b) = body_texts a ++ body_texts b.
Proof.
  induction a as [|x a IH]; intros b; simpl; [reflexivity|].
  destruct x as [t [| | |]|w h]; simpl; now rewrite IH.
Qed.

Lemma body_paragraphs_texts : forall lines,
    body_texts (body_paragraphs lines)
    = filter (fun l => negb (is_blank l)) lines.
Proof.
  induction lines as [|l lines IH]; simpl; [reflexivity|].
  rewrite strip_blank. destruct (negb (is_blank l)); simpl; now rewrite IH.
Qed.

Lemma generate_pdf_body : forall now text,
    body_texts (generate_pdf now text)
    = filter (fun l => negb (is_blank l)) (split LF (clean_text text)).
Proof.
  intros now text. unfold generate_pdf.
  rewrite !body_texts_app, body_paragraphs_texts. simpl.
  now rewrite app_nil_r.
Qed.

(** C7.  The renderer escapes the markup-significant characters first and
    strips the emphasis markers from the escaped text, so the result is the
    escaped text without its stars and every entity is left whole; the body
    of the document has one paragraph per non-blank line of the cleaned text,
    in order, and none for a blank line.  For "<b>100</b> kcal", an empty
    line and "Good", the body is the escaped first line and "Good". *)
Theorem clean_text_then_paragraphs : forall (now : datetime) (text : pystr),
    clean_text text = replace (py "*") [] (replace (py "**") [] (html_escape text))
    /\ clean_text text = filter not_star (flat_map escape_char text)
    /\ clean_text text = flat_map escape_char (filter not_star text)
    /\ Forall (fun x => x <> 60 /\ x <> 62 /\ x <> 34 /\ x <> 39 /\ x <> STAR)
              (clean_text text)
    /\ body_texts (generate_pdf now text)
       = filter (fun l => negb (is_blank l)) (split LF (clean_text text))
    /\ body_texts (generate_pdf now (py "<b>100</b> kcal" ++ [LF; LF] ++ py "Good"))
       = [py "&lt;b&gt;100&lt;/b&gt; kcal"; py "Good"].
Proof.
  intros now text. split; [reflexivity|]. split; [apply clean_text_filter|].
  split; [now rewrite clean_text_filter, filter_escape_commute|].
  split; [|split; [apply generate_pdf_body|]].
  - rewrite clean_text_filter, filter_escape_commute.
    apply Forall_flat_map. apply Forall_forall. intros c Hc.
    apply filter_In in Hc. apply escape_char_clean. apply Hc.
  - rewrite generate_pdf_body. vm_compute. reflexivity.
Qed.

(** C8.  On the empty text the story is the title, the generation
    time stamp and the footer, with no body paragraph: three paragraphs, and
    so not an empty document. *)
Theorem generate_pdf_empty : forall now : datetime,
    generate_pdf now []
    = [Paragraph report_title StyleTitle;
       Spacer 1 10;
       Paragraph (py "Generated on: " ++ strftime_dmY_HM now) StyleNormal;
       Spacer 1 14;
       Spacer 1 20;
       Paragraph report_footer StyleItalic]
    /\ paragraphs (generate_pdf now [])
       = [(report_title, StyleTitle);
          (py "Generated on: " ++ strftime_dmY_HM now, StyleNormal);
          (report_footer, StyleItalic)]
    /\ body_texts (generate_pdf now []) = []
    /\ generate_pdf now [] <> [].
Proof.
  intros now. split; [reflexivity|]. split; [reflexivity|].
  split; [reflexivity|]. discriminate.
Qed.

(** ** ShareLinkBuilder *)

Lemma utf8_encode_app : forall a b,
    utf8_encode (a ++ b)
    = match utf8_encode a, utf8_encode b with
      | Some x, Some y => Some (x ++ y)
      | _, _ => None
      end.
Proof.
  induction a as [|c a IH]; intros b; cbn [utf8_encode app].
  - destruct (utf8_encode b); reflexivity.
  - rewrite IH. destruct (utf8_char c) as [bc|]; [|reflexivity].
    destruct (utf8_encode a) as [x|]; [|reflexivity].
    destruct (utf8_encode b) as [y|]; [|reflexivity].
    now rewrite app_assoc.
Qed.

Lemma quote_app : forall a b,
    quote (a ++ b)
    = match quote a, quote b with
      | Some x, Some y => Some (x ++ y)
      | _, _ => None
      end.
Proof.
  intros a b. unfold quote. rewrite utf8_encode_app.
  destruct (utf8_encode a) as [x|]; [|reflexivity].
  destruct (utf8_encode b) as [y|]; [|reflexivity].
  simpl. unfold quote_from_bytes. now rewrite flat_map_app.
Qed.

Lemma utf8_char_scalar : forall c,
    scalar c = true ->
    exists bs, utf8_char c = Some bs /\ Forall (fun b => b < 256) bs.
Proof.
  intros c Hc. unfold scalar in Hc. unfold utf8_char, between.
  destruct (N.ltb c 128) eqn:E1.
  { eexists. split; [reflexivity|]. boolprop; repeat constructor; lia. }
  destruct (N.ltb c 2048) eqn:E2.
  { eexists. split; [reflexivity|]. apply N.ltb_lt in E2.
    assert (c / 64 < 32) by (apply N.Div0.div_lt_upper_bound; lia).
    assert (c mod 64 < 64) by (apply N.mod_lt; lia).
    repeat constructor; lia. }
  destruct (N.leb 55296 c && N.leb c 57343) eqn:E3.
  { exfalso. boolprop; lia. }
  destruct (N.ltb c 65536) eqn:E4.
  { eexists. split; [reflexivity|]. apply N.ltb_lt in E4.
    assert (c / 4096 < 16) by (apply N.Div0.div_lt_upper_bound; lia).
    assert ((c / 64) mod 64 < 64) by (apply N.mod_lt; lia).
    assert (c mod 64 < 64) by (apply N.mod_lt; lia).
    repeat constructor; lia. }
  destruct (N.ltb c 1114112) eqn:E5.
  { eexists. split; [reflexivity|]. apply N.ltb_lt in E5.
    assert (c / 262144 < 8) by (apply N.Div0.div_lt_upper_bound; lia).
    assert ((c / 4096) mod 64 < 64) by (apply N.mod_lt; lia).
    assert ((c / 64) mod 64 < 64) by (apply N.mod_lt; lia).
    assert (c mod 64 < 64) by (apply N.mod_lt; lia).
    repeat constructor; lia. }
  exfalso. boolprop; lia.
Qed.

Lemma utf8_encode_valid : forall s,
    valid_text s = true ->
    exists bs, utf8_encode s = Some bs /\ Forall (fun b => b < 256) bs.
Proof.
  induction s as [|c s IH]; intros H; cbn [utf8_encode].
  - exists []. auto.
  - cbn [valid_text forallb] in H. apply andb_true_iff in H. destruct H as [Hc Hs].
    destruct (utf8_char_scalar c Hc) as (bc & -> & Hbc).
    destruct (IH Hs) as (bs & -> & Hbs).
    exists (bc ++ bs). split; [reflexivity|]. apply Forall_app. auto.
Qed.

Lemma utf8_char_some_scalar : forall c bc,
    utf8_char c = Some bc -> scalar c = true.
Proof.
  intros c bc Ec. unfold utf8_char, between in Ec.
  assert (Hlt : forall n, c < n -> n <= 55296 -> scalar c = true).
  { intros n H1 H2. unfold scalar. apply orb_true_iff. left.
    apply N.ltb_lt. lia. }
  assert (Hgt : 57343 < c -> c < 1114112 -> scalar c = true).
  { intros H1 H2. unfold scalar. apply orb_true_iff. right.
    apply andb_true_iff. split; now apply N.ltb_lt. }
  destruct (N.ltb c 128) eqn:E1.
  { apply N.ltb_lt in E1. apply (Hlt 128); [exact E1|lia]. }
  destruct (N.ltb c 2048) eqn:E2.
  { apply N.ltb_lt in E2. apply (Hlt 2048); [exact E2|lia]. }
  destruct (N.leb 55296 c && N.leb c 57343) eqn:E3; [discriminate|].
  apply andb_false_iff in E3.
  destruct (N.ltb c 65536) eqn:E4.
  { apply N.ltb_lt in E4. destruct E3 as [E3|E3]; apply N.leb_gt in E3.
    - apply (Hlt 55296); [exact E3|lia].
    - apply Hgt; lia. }
  destruct (N.ltb c 1114112) eqn:E5; [|discriminate].
  apply N.ltb_lt in E5. apply N.ltb_ge in E4. apply Hgt; lia.
Qed.

Lemma utf8_encode_some_valid : forall s bs,
    utf8_encode s = Some bs -> valid_text s = true.
Proof.
  induction s as [|c s IH]; intros bs H; [reflexivity|].
  cbn [utf8_encode] in H. cbn [valid_text forallb].
  destruct (utf8_char c) as [bc|] eqn:Ec; [|discriminate].
  destruct (utf8_encode s) as [bs'|] eqn:Es; [|discriminate].
  fold (valid_text s). rewrite (IH bs' eq_refl), andb_true_r.
  eapply utf8_char_some_scalar. exact Ec.
Qed.

Lemma hex_value_digit : forall d, d < 16 -> hex_value (hex_digit d) = Some d.
Proof.
  intros d Hd. unfold hex_digit, hex_value, between.
  destruct (N.ltb d 10) eqn:E; boolprop.
  - replace (N.leb 48 (48 + d) && N.leb (48 + d) 57) with true.
    + f_equal. lia.
    + symmetry. apply andb_true_iff. split; apply N.leb_le; lia.
  - replace (N.leb 48 (55 + d) && N.leb (55 + d) 57) with false.
    + replace (N.leb 65 (55 + d) && N.leb (55 + d) 70) with true.
      * f_equal. lia.
      * symmetry. apply andb_true_iff. split; apply N.leb_le; lia.
    + symmetry. apply andb_false_iff. right. apply N.leb_gt. lia.
Qed.

Lemma unquote_plain : forall c s,
    c <> 37 -> unquote_to_bytes (c :: s) = c :: unquote_to_bytes s.
Proof.
  intros c s Hc. cbn [unquote_to_bytes]. apply N.eqb_neq in Hc. rewrite Hc.
  destruct s as [|h [|l rest]]; reflexivity.
Qed.

(** Percent-decoding reads back every byte that was quoted. *)
Lemma unquote_quote : forall bs,
    Forall (fun b => b < 256) bs ->
    unquote_to_bytes (quote_from_bytes bs) = bs.
Proof.
  induction bs as [|b bs IH]; intros H; [reflexivity|].
  inversion H as [|? ? Hb Hbs]; subst. unfold quote_from_bytes.
  cbn [flat_map]. fold (quote_from_bytes bs). unfold quote_byte.
  destruct (quote_safe b) eqn:Es.
  - cbn [app]. rewrite unquote_plain, (IH Hbs); [reflexivity|].
    intros ->. discriminate Es.
  - cbn [app unquote_to_bytes]. rewrite N.eqb_refl.
    rewrite !hex_value_digit.
    + fold unquote_to_bytes. rewrite (IH Hbs). f_equal.
      rewrite (N.div_mod b 16) at 3 by lia. lia.
    + apply N.mod_lt. lia.
    + apply N.Div0.div_lt_upper_bound. lia.
Qed.

Lemma share_text_parts : forall owner raw,
    share_text owner raw
    = share_prefix ++ owner ++ share_middle ++ raw ++ share_suffix.
Proof.
  intros owner raw. unfold share_text, share_prefix, share_middle, share_suffix.
  repeat (rewrite <- ?app_assoc; cbn [app]). reflexivity.
Qed.

(** In the handler the record is stored before the link is built, and
    storing binds the same strings as UTF-8. *)
Lemma stored_text_valid : forall U limit locked tbl tbl' username now result,
    record_analysis U limit locked tbl username now result = Some tbl' ->
    valid_text username = true /\ valid_text result = true.
Proof.
  intros U limit locked tbl tbl' username now result H.
  unfold record_analysis in H.
  destruct (extract_calories U limit result) as [cal|]; [|discriminate].
  destruct locked; [discriminate|].
  unfold history_insert in H.
  cbn [rec_username rec_date rec_meal rec_calories rec_details analysis_of] in H.
  destruct (bindable_text username) eqn:E1; [|discriminate].
  destruct (bindable_text (strftime_dmY_HM now)); [|discriminate].
  destruct (bindable_text (hd [] (split LF result))); [|discriminate].
  destruct (bindable_int (Z.of_N cal)); [|discriminate].
  destruct (bindable_text result) eqn:E2; [|discriminate].
  unfold bindable_text in E1, E2.
  destruct (utf8_encode username) eqn:F1; [|discriminate].
  destruct (utf8_encode result) eqn:F2; [|discriminate].
  split; eapply utf8_encode_some_valid; eassumption.
Qed.

(** ** HistoryStore *)

Lemma str_eqb_eq : forall a b, str_eqb a b = true <-> a = b.
Proof.
  induction a as [|x a IH]; intros [|y b]; cbn [str_eqb]; split; intros H;
    try reflexivity; try discriminate.
  - apply andb_true_iff in H. destruct H as [Hx Hab].
    apply N.eqb_eq in Hx. apply IH in Hab. now subst.
  - inversion H; subst. rewrite N.eqb_refl. now apply IH.
Qed.


Lemma lex_ltb_cons : forall x a y b,
    lex_ltb (x :: a) (y :: b) = true <-> x < y \/ (x = y /\ lex_ltb a b = true).
Proof.
  intros x a y b. cbn [lex_ltb].
  rewrite orb_true_iff, andb_true_iff, N.ltb_lt, N.eqb_eq. reflexivity.
Qed.



Lemma insert_desc_perm : forall r l, Permutation (insert_desc r l) (r :: l).
Proof.
  intros r l. induction l as [|x l IH]; cbn [insert_desc]; [reflexivity|].
  destruct (lex_ltb (h_date r) (h_date x)); [|reflexivity].
  rewrite IH. apply perm_swap.
Qed.

Lemma order_by_date_desc_perm : forall l, Permutation (order_by_date_desc l) l.
Proof.
  induction l as [|r l IH]; cbn [order_by_date_desc fold_right]; [reflexivity|].
  fold (order_by_date_desc l). rewrite insert_desc_perm. now constructor.
Qed.




Lemma row_date_select : forall r,
    row_date (select [col_date; col_meal; col_calories] r) = h_date r.
Proof. reflexivity. Qed.





Lemma insert_query_row : forall tbl tbl' r,
    history_insert tbl r = Some tbl' ->
    In (select [col_date; col_meal; col_calories]
          {| h_id := next_id tbl;
             h_username := rec_username r;
             h_date := rec_date r;
             h_meal := rec_meal r;
             h_calories := rec_calories r;
             h_details := rec_details r |})
       (history_query tbl' (rec_username r))
    /\ tbl' = tbl ++ [{| h_id := next_id tbl;
                         h_username := rec_username r;
                         h_date := rec_date r;
                         h_meal := rec_meal r;
                         h_calories := rec_calories r;
                         h_details := rec_details r |}].
Proof.
  intros tbl tbl' r H. unfold history_insert in H.
  match type of H with (if ?c then _ else _) = _ => destruct c; [|discriminate] end.
  inversion H; subst tbl'; clear H. split; [|reflexivity].
  unfold history_query. apply in_map.
  apply (Permutation_in _ (Permutation_sym (order_by_date_desc_perm _))).
  apply filter_In. split.
  - apply in_or_app. right. left. reflexivity.
  - apply str_eqb_eq. reflexivity.
Qed.

(** C5, as the program has it.  After a record is appended, the query for
    its owner returns a row equal to it in title, calories and timestamp.
    The raw text is kept in the table, in the [details] column of the new
    row, which the query does not select. *)
Theorem round_trip_selected_columns :
  round_trip [col_meal; col_calories; col_date]
  /\ forall (tbl tbl' : history) (r : analysis_record),
      history_insert tbl r = Some tbl' ->
      exists hr, In hr tbl'
                 /\ h_username hr = rec_username r /\ h_date hr = rec_date r
                 /\ h_meal hr = rec_meal r /\ h_calories hr = rec_calories r
                 /\ h_details hr = rec_details r.
Proof.
  split.
  - intros tbl tbl' r H. destruct (insert_query_row tbl tbl' r H) as [Hin _].
    eexists. split; [exact Hin|].
    intros c [<-|[<-|[<-|[]]]]; reflexivity.
  - intros tbl tbl' r H. destruct (insert_query_row tbl tbl' r H) as [_ ->].
    eexists. split; [apply in_or_app; right; left; reflexivity|].
    repeat split.
Qed.

Lemma round_trip_selected_columns_witness :
  history_insert [] sample_record <> None
  /\ exists row,
      In row (history_query
                [{| h_id := 1; h_username := rec_username sample_record;
                    h_date := rec_date sample_record;
                    h_meal := rec_meal sample_record;
                    h_calories := rec_calories sample_record;
                    h_details := rec_details sample_record |}]
                (rec_username sample_record))
      /\ row_equals [col_meal; col_calories; col_date] row sample_record.
Proof.
  split; [discriminate|].
  apply (proj1 round_trip_selected_columns [] _ sample_record).
  vm_compute. reflexivity.
Defined.

(** C5, as stated, fails: appended to the empty table, the sample record
    comes back from the query without its raw text, so no returned row equals
    it in all four of title, calories, timestamp and raw text. *)
Lemma round_trip_raw_text_missing :
  exists tbl',
    history_insert [] sample_record = Some tbl'
    /\ history_query tbl' (rec_username sample_record)
       = [[(col_date, VText (rec_date sample_record));
           (col_meal, VText (rec_meal sample_record));
           (col_calories, VInt (rec_calories sample_record))]]
    /\ (forall row, In row (history_query tbl' (rec_username sample_record)) ->
                    row_get col_details row = None)
    /\ ~ exists row,
          In row (history_query tbl' (rec_username sample_record))
          /\ row_equals [col_meal; col_calories; col_date; col_details]
                        row sample_record.
Proof.
  eexists. split; [vm_compute; reflexivity|].
  split; [vm_compute; reflexivity|]. split.
  - intros row [<-|[]]. reflexivity.
  - intros (row & [<-|[]] & Heq).
    specialize (Heq col_details). cbn in Heq.
    assert (H : @None value = Some (VText (rec_details sample_record))).
    { apply Heq. auto. }
    discriminate H.
Qed.

(** ** The clock format *)

(** C3, on the program.  The stored format puts the day first, so the order
    of the strings is not the order of the times: 2 January 2025 is before
    1 February 2025, yet its string is the greater one, and the history lists
    the January record above the later February record. *)
Theorem strftime_day_first_order :
  dt_valid jan_02 = true /\ dt_valid feb_01 = true
  /\ dt_ltb jan_02 feb_01 = true
  /\ strftime_dmY_HM jan_02 = py "02-01-2025 09:00"
  /\ strftime_dmY_HM feb_01 = py "01-02-2025 09:00"
  /\ lex_ltb (strftime_dmY_HM jan_02) (strftime_dmY_HM feb_01) = false
  /\ lex_ltb (strftime_dmY_HM feb_01) (strftime_dmY_HM jan_02) = true
  /\ (forall (U : UCD) (limit : nat),
         exists tbl1 tbl2,
           record_analysis U limit false [] (py "asha") jan_02 (py "Oats: 150 kcal")
           = Some tbl1
           /\ record_analysis U limit false tbl1 (py "asha") feb_01
                (py "Dal: 200 kcal") = Some tbl2
           /\ map row_date (history_query tbl2 (py "asha"))
              = [py "02-01-2025 09:00"; py "01-02-2025 09:00"]).
Proof.
  split; [reflexivity|]. split; [reflexivity|]. split; [reflexivity|].
  split; [reflexivity|]. split; [reflexivity|]. split; [reflexivity|].
  split; [reflexivity|].
  intros U limit. eexists. eexists.
  split; [vm_compute; reflexivity|]. split; vm_compute; reflexivity.
Qed.

(** ** Accounts *)

Lemma bindable_text_valid : forall s, bindable_text s = valid_text s.
Proof.
  intros s. unfold bindable_text. destruct (utf8_encode s) as [bs|] eqn:E.
  - symmetry. apply (utf8_encode_some_valid s bs E).
  - destruct (valid_text s) eqn:V; [|reflexivity].
    destruct (utf8_encode_valid s V) as (bs & E' & _). congruence.
Qed.

Lemma hexdigest_valid : forall d, valid_text (hexdigest d) = true.
Proof.
  induction d as [|b d IH]; [reflexivity|].
  unfold hexdigest. cbn [flat_map app valid_text forallb].
  fold (hexdigest d). fold (valid_text (hexdigest d)). rewrite IH, andb_true_r.
  assert (H : forall x, x < 16 -> scalar (hex_lower x) = true).
  { intros x Hx. unfold scalar, hex_lower. apply orb_true_iff. left.
    apply N.ltb_lt. destruct (N.ltb x 10); lia. }
  rewrite !H; [reflexivity| |]; apply N.mod_lt; lia.
Qed.

Lemma existsb_username : forall (tbl : users) nu,
    existsb (fun r => str_eqb (u_username r) nu) tbl = true
    <-> In nu (usernames tbl).
Proof.
  intros tbl nu. unfold usernames. rewrite existsb_exists, in_map_iff. split.
  - intros (r & Hr & E). apply str_eqb_eq in E. eauto.
  - intros (r & E & Hr). exists r. split; [exact Hr|]. now apply str_eqb_eq.
Qed.

Lemma select_password_app : forall (tbl tbl2 : users) u,
    select_password (tbl ++ tbl2) u
    = match select_password tbl u with
      | Some h => Some h
      | None => select_password tbl2 u
      end.
Proof.
  intros tbl tbl2 u. unfold select_password. induction tbl as [|r tbl IH].
  - reflexivity.
  - cbn [app find]. destruct (str_eqb (u_username r) u); [reflexivity|exact IH].
Qed.

Lemma select_password_none : forall (tbl : users) u,
    select_password tbl u = None <-> ~ In u (usernames tbl).
Proof.
  intros tbl u. unfold select_password, usernames. induction tbl as [|r tbl IH].
  - cbn. tauto.
  - cbn [find map In]. destruct (str_eqb (u_username r) u) eqn:E.
    + apply str_eqb_eq in E. cbn. split; [discriminate|]. intros H. exfalso. auto.
    + rewrite IH. split.
      * intros H [K|K]; [|auto]. apply str_eqb_eq in K. congruence.
      * intros H K. apply H. now right.
Qed.

Section AuthFacts.
Variable sha256 : list N -> list N.

Lemma hash_pass_valid : forall p h,
    hash_pass sha256 p = Some h -> valid_text p = true /\ valid_text h = true.
Proof.
  intros p h H. unfold hash_pass in H.
  destruct (utf8_encode p) as [bs|] eqn:E; [|discriminate].
  injection H as <-. split; [apply (utf8_encode_some_valid p bs E)|].
  apply hexdigest_valid.
Qed.

Lemma hash_pass_some : forall p,
    valid_text p = true -> exists h, hash_pass sha256 p = Some h.
Proof.
  intros p V. destruct (utf8_encode_valid p V) as (bs & E & _).
  unfold hash_pass. rewrite E. eexists. reflexivity.
Qed.

Lemma create_click_cases : forall locked tbl nu np,
    (locked = false
     /\ exists h, hash_pass sha256 np = Some h
               /\ valid_text nu = true /\ ~ In nu (usernames tbl)
               /\ create_click sha256 locked tbl nu np
                  = (tbl ++ [{| u_username := nu; u_password := h |}],
                     AccountCreated, false))
    \/ ((locked = true \/ valid_text nu = false \/ valid_text np = false
         \/ In nu (usernames tbl))
        /\ exists after,
            create_click sha256 locked tbl nu np = (tbl, UsernameExists, after)
            /\ (after = true
                <-> locked = true
                    \/ (valid_text nu = true /\ valid_text np = true
                        /\ In nu (usernames tbl)))).
Proof.
  intros locked tbl nu np. unfold create_click.
  destruct (hash_pass sha256 np) as [h|] eqn:Eh.
  - destruct (hash_pass_valid np h Eh) as [Vp Vh].
    unfold users_insert. rewrite !bindable_text_valid, Vh, andb_true_r.
    destruct (valid_text nu) eqn:Vn; cbn [andb negb].
    + destruct locked.
      * right. split; [now left|]. exists true. split; [reflexivity|].
        split; auto.
      * destruct (existsb (fun r => str_eqb (u_username r) nu) tbl) eqn:Ex;
          cbn [negb].
        -- apply existsb_username in Ex. right. split; [auto|].
           exists true. split; [reflexivity|]. split; auto.
        -- left. split; [reflexivity|]. exists h. repeat split; auto.
           intros H. apply existsb_username in H. congruence.
    + right. split; [auto|]. exists locked. split; [reflexivity|].
      split; [now left|]. intros [H|(H & _)]; [exact H|discriminate].
  - assert (Vp : valid_text np = false).
    { destruct (valid_text np) eqn:V; [|reflexivity].
      destruct (hash_pass_some np V) as (h & E). congruence. }
    right. split; [auto|]. exists locked. split; [reflexivity|].
    split; [now left|]. intros [H|(_ & H & _)]; [exact H|congruence].
Qed.
End AuthFacts.

(** X1.  An account is created exactly when no connection holds the
    database, the new username and the new password can be encoded as UTF-8
    and the username is not in the table; the table then gains one row with
    that username and the hash of the password, and the connection is
    closed.  In every other case, whatever was raised, the table is left as
    it was and the message is the one for an existing username.  The
    database is held afterwards exactly when it was held before or the
    INSERT was refused for a username of the table; and while it is held,
    every further click is refused, also for a new username. *)
Theorem create_click_created_iff :
  forall (sha256 : list N -> list N) (locked : bool) (tbl : users)
         (nu np : pystr),
    (snd (fst (create_click sha256 locked tbl nu np)) = AccountCreated
     <-> locked = false /\ valid_text nu = true /\ valid_text np = true
         /\ ~ In nu (usernames tbl))
    /\ (snd (fst (create_click sha256 locked tbl nu np)) = AccountCreated ->
        exists h, hash_pass sha256 np = Some h
                  /\ create_click sha256 locked tbl nu np
                     = (tbl ++ [{| u_username := nu; u_password := h |}],
                        AccountCreated, false))
    /\ (snd (fst (create_click sha256 locked tbl nu np)) <> AccountCreated ->
        fst (create_click sha256 locked tbl nu np) = (tbl, UsernameExists))
    /\ (snd (create_click sha256 locked tbl nu np) = true
        <-> locked = true
            \/ (valid_text nu = true /\ valid_text np = true
                /\ In nu (usernames tbl)))
    /\ (forall nu2 np2,
          snd (create_click sha256 locked tbl nu np) = true ->
          fst (create_click sha256 true
                 (fst (fst (create_click sha256 locked tbl nu np))) nu2 np2)
          = (tbl, UsernameExists)).
Proof.
  intros sha256 locked tbl nu np.
  destruct (create_click_cases sha256 locked tbl nu np)
    as [(L & h & Eh & Vn & Hn & E)|[Hbad (after & E & Ha)]]; rewrite E;
    cbn [fst snd].
  - destruct (hash_pass_valid sha256 np h Eh) as [Vp _].
    split; [|split; [|split; [|split]]].
    + split; [|reflexivity]. intros _. auto.
    + intros _. exists h. auto.
    + intros H. contradiction.
    + split; [discriminate|]. intros [H|(_ & _ & H)]; [congruence|contradiction].
    + discriminate.
  - split; [|split; [|split; [|split]]].
    + split; [discriminate|]. intros (L & Vn & Vp & Hn).
      destruct Hbad as [H|[H|[H|H]]]; [congruence|congruence|congruence|contradiction].
    + discriminate.
    + reflexivity.
    + exact Ha.
    + intros nu2 np2 _.
      destruct (create_click_cases sha256 true tbl nu2 np2)
        as [(L & _)|[_ (after2 & E2 & _)]]; [discriminate|].
      now rewrite E2.
Qed.

(** X2.  Round trip of the two buttons: after an account was created,
    logging in with the same username and password succeeds, whatever the
    session was, and sets the session to that user. *)
Theorem create_then_login :
  forall (sha256 : list N -> list N) (locked after : bool) (tbl tbl' : users)
         (st : session) (nu np : pystr),
    create_click sha256 locked tbl nu np = (tbl', AccountCreated, after) ->
    login_click sha256 tbl' st nu np
    = Some ({| logged_in := true; username := nu |}, None).
Proof.
  intros sha256 locked after tbl tbl' st nu np H.
  destruct (create_click_cases sha256 locked tbl nu np)
    as [(L & h & Eh & Vn & Hn & E)|[_ (a & E & _)]]; rewrite E in H;
    [|discriminate].
  injection H as <- _. unfold login_click.
  rewrite bindable_text_valid, Vn, select_password_app.
  apply select_password_none in Hn. rewrite Hn.
  unfold select_password. cbn [find u_username option_map u_password].
  assert (R : str_eqb nu nu = true) by now apply str_eqb_eq.
  rewrite R. cbn [option_map u_password]. rewrite Eh.
  assert (R' : str_eqb h h = true) by now apply str_eqb_eq.
  now rewrite R'.
Qed.

Lemma create_then_login_witness :
  create_click (fun b => b) false [] (py "asha") (py "s3cret")
  = ([{| u_username := py "asha";
         u_password := hexdigest (py "s3cret") |}], AccountCreated, false)
  /\ login_click (fun b => b)
       [{| u_username := py "asha"; u_password := hexdigest (py "s3cret") |}]
       {| logged_in := false; username := [] |} (py "asha") (py "s3cret")
     = Some ({| logged_in := true; username := py "asha" |}, None).
Proof.
  split; [vm_compute; reflexivity|].
  apply (create_then_login (fun b => b) false false [] _ _ (py "asha") (py "s3cret")).
  vm_compute. reflexivity.
Defined.

(** X3.  The Create Account button keeps the accounts it finds: usernames
    stay unique, and the password stored for an existing username is never
    changed, whatever is submitted. *)
Theorem create_click_keeps_accounts :
  forall (sha256 : list N -> list N) (locked : bool) (tbl : users)
         (nu np : pystr),
    (NoDup (usernames tbl) ->
     NoDup (usernames (fst (fst (create_click sha256 locked tbl nu np)))))
    /\ (forall u, In u (usernames tbl) ->
                  select_password
                    (fst (fst (create_click sha256 locked tbl nu np))) u
                  = select_password tbl u).
Proof.
  intros sha256 locked tbl nu np.
  destruct (create_click_cases sha256 locked tbl nu np)
    as [(L & h & Eh & Vn & Hn & E)|[_ (a & E & _)]]; rewrite E; cbn [fst];
    [|auto].
  split.
  - intros Hd. unfold usernames. rewrite map_app. cbn [map u_username].
    apply NoDup_app; [exact Hd|repeat constructor; intros []|].
    intros x Hx [<-|[]]. contradiction.
  - intros u Hu. rewrite select_password_app.
    destruct (select_password tbl u) eqn:S; [reflexivity|].
    apply select_password_none in S. contradiction.
Qed.

(** X4.  Login succeeds only for a username that has a row whose stored
    password is the hash of the password typed, and then the session is that
    user's; every other completed attempt shows the one message for invalid
    credentials and leaves the session as it was.  For a username without a
    row the password is not even hashed: the attempt cannot raise on it. *)
Theorem login_click_sound :
  forall (sha256 : list N -> list N) (tbl : users) (st : session) (u p : pystr),
    (forall st' msg,
        login_click sha256 tbl st u p = Some (st', msg) ->
        (msg = None /\ st' = {| logged_in := true; username := u |}
         /\ exists row, In row tbl /\ u_username row = u
                        /\ hash_pass sha256 p = Some (u_password row))
        \/ (msg = Some InvalidCredentials /\ st' = st))
    /\ (valid_text u = true -> ~ In u (usernames tbl) ->
        login_click sha256 tbl st u p = Some (st, Some InvalidCredentials)).
Proof.
  intros sha256 tbl st u p. unfold login_click. split.
  - intros st' msg H.
    destruct (bindable_text u); [|discriminate].
    unfold select_password in H.
    destruct (find (fun r => str_eqb (u_username r) u) tbl) as [row|] eqn:F;
      cbn [option_map] in H.
    + destruct (hash_pass sha256 p) as [h|] eqn:Eh; [|discriminate].
      destruct (str_eqb (u_password row) h) eqn:Eq.
      * injection H as <- <-. left. repeat split.
        apply find_some in F. destruct F as [Hin Hu].
        apply str_eqb_eq in Hu. apply str_eqb_eq in Eq.
        exists row. repeat split; auto. now subst.
      * injection H as <- <-. right. auto.
    + injection H as <- <-. right. auto.
  - intros V Hn. rewrite bindable_text_valid, V.
    apply select_password_none in Hn. now rewrite Hn.
Qed.

(** ** HistoryStore: what an insertion changes *)

Lemma history_insert_row : forall tbl r tbl',
    history_insert tbl r = Some tbl' ->
    (next_id tbl <= INT64_MAX)%Z
    /\ tbl' = tbl ++ [{| h_id := next_id tbl;
                         h_username := rec_username r;
                         h_date := rec_date r;
                         h_meal := rec_meal r;
                         h_calories := rec_calories r;
                         h_details := rec_details r |}].
Proof.
  intros tbl r tbl' H. unfold history_insert in H.
  destruct (Z.leb (next_id tbl) INT64_MAX) eqn:E.
  - apply Z.leb_le in E. split; [exact E|].
    rewrite andb_true_r in H.
    match type of H with (if ?c then _ else _) = _ => destruct c; [|discriminate] end.
    now injection H as <-.
  - rewrite andb_false_r in H. discriminate.
Qed.

Lemma next_id_above : forall tbl x,
    In x tbl -> (h_id x < next_id tbl)%Z.
Proof.
  intros tbl x. unfold next_id. induction tbl as [|y tbl IH]; intros H; [destruct H|].
  cbn [fold_right]. destruct H as [->|H]; [lia|]. specialize (IH H). lia.
Qed.

Lemma next_id_positive : forall tbl, (0 < next_id tbl)%Z.
Proof.
  intros tbl. unfold next_id.
  assert (H : (0 <= fold_right (fun r m => Z.max (h_id r) m) 0 tbl)%Z).
  { induction tbl as [|y tbl IH]; cbn [fold_right]; lia. }
  lia.
Qed.

(** X5.  An insertion appends one row and touches no other: the new row
    gets an id that is positive and greater than every id of the table, so
    ids that were unique stay unique. *)
Theorem history_insert_fresh_id : forall (tbl tbl' : history) (r : analysis_record),
    history_insert tbl r = Some tbl' ->
    exists row,
      tbl' = tbl ++ [row]
      /\ (0 < h_id row)%Z
      /\ (forall x, In x tbl -> (h_id x < h_id row)%Z)
      /\ (NoDup (history_ids tbl) -> NoDup (history_ids tbl')).
Proof.
  intros tbl tbl' r H. destruct (history_insert_row tbl r tbl' H) as [_ ->].
  eexists. split; [reflexivity|]. cbn [h_id].
  split; [apply next_id_positive|]. split; [apply next_id_above|].
  intros Hd. unfold history_ids. rewrite map_app. cbn [map h_id].
  apply NoDup_app; [exact Hd|repeat constructor; intros []|].
  intros z Hz [<-|[]]. apply in_map_iff in Hz. destruct Hz as (x & Ex & Hx).
  apply next_id_above in Hx. lia.
Qed.

Lemma history_insert_fresh_id_witness :
  history_insert [] sample_record <> None
  /\ exists row,
      [{| h_id := 1; h_username := rec_username sample_record;
          h_date := rec_date sample_record; h_meal := rec_meal sample_record;
          h_calories := rec_calories sample_record;
          h_details := rec_details sample_record |}] = [] ++ [row]
      /\ (0 < h_id row)%Z
      /\ (forall x, In x [] -> (h_id x < h_id row)%Z)
      /\ (NoDup (history_ids []) ->
          NoDup (history_ids
                   [{| h_id := 1; h_username := rec_username sample_record;
                       h_date := rec_date sample_record;
                       h_meal := rec_meal sample_record;
                       h_calories := rec_calories sample_record;
                       h_details := rec_details sample_record |}])).
Proof.
  split; [discriminate|].
  apply (history_insert_fresh_id [] _ sample_record).
  vm_compute. reflexivity.
Defined.

Lemma filter_owner_app : forall (tbl : history) row owner,
    filter (fun r => str_eqb (h_username r) owner) (tbl ++ [row])
    = filter (fun r => str_eqb (h_username r) owner) tbl
      ++ (if str_eqb (h_username row) owner then [row] else []).
Proof.
  intros tbl row owner. rewrite filter_app. reflexivity.
Qed.

(** X6.  Users are kept apart: an insertion for one user leaves the
    history that any other user's query returns exactly as it was. *)
Theorem history_insert_other_owner :
  forall (tbl tbl' : history) (r : analysis_record) (owner : pystr),
    history_insert tbl r = Some tbl' ->
    owner <> rec_username r ->
    history_query tbl' owner = history_query tbl owner.
Proof.
  intros tbl tbl' r owner H Hne.
  destruct (history_insert_row tbl r tbl' H) as [_ ->].
  unfold history_query. rewrite filter_owner_app. cbn [h_username].
  destruct (str_eqb (rec_username r) owner) eqn:E.
  - apply str_eqb_eq in E. congruence.
  - now rewrite app_nil_r.
Qed.

Lemma history_insert_other_owner_witness :
  history_insert [] sample_record <> None
  /\ py "ravi" <> rec_username sample_record
  /\ history_query
       [{| h_id := 1; h_username := rec_username sample_record;
           h_date := rec_date sample_record; h_meal := rec_meal sample_record;
           h_calories := rec_calories sample_record;
           h_details := rec_details sample_record |}] (py "ravi")
     = history_query [] (py "ravi").
Proof.
  split; [discriminate|]. split; [discriminate|].
  apply (history_insert_other_owner [] _ sample_record (py "ravi")).
  - vm_compute. reflexivity.
  - discriminate.
Defined.

(** X7.  The history only grows: after an insertion the owner's query
    returns the rows it returned before and one more, the three columns of
    the record just stored. *)
Theorem history_insert_adds_one :
  forall (tbl tbl' : history) (r : analysis_record),
    history_insert tbl r = Some tbl' ->
    Permutation
      (history_query tbl' (rec_username r))
      ([(col_date, VText (rec_date r)); (col_meal, VText (rec_meal r));
        (col_calories, VInt (rec_calories r))]
         :: history_query tbl (rec_username r))
    /\ length (history_query tbl' (rec_username r))
       = S (length (history_query tbl (rec_username r))).
Proof.
  intros tbl tbl' r H.
  destruct (history_insert_row tbl r tbl' H) as [_ ->].
  assert (P : Permutation
                (history_query
                   (tbl ++ [{| h_id := next_id tbl;
                               h_username := rec_username r;
                               h_date := rec_date r;
                               h_meal := rec_meal r;
                               h_calories := rec_calories r;
                               h_details := rec_details r |}])
                   (rec_username r))
                ([(col_date, VText (rec_date r)); (col_meal, VText (rec_meal r));
                  (col_calories, VInt (rec_calories r))]
                   :: history_query tbl (rec_username r))).
  { unfold history_query. rewrite filter_owner_app. cbn [h_username].
    assert (E : str_eqb (rec_username r) (rec_username r) = true)
      by now apply str_eqb_eq.
    rewrite E.
    rewrite order_by_date_desc_perm, map_app. cbn [map].
    rewrite Permutation_app_comm. cbn [app]. apply perm_skip.
    apply Permutation_map. symmetry. apply order_by_date_desc_perm. }
  split; [exact P|]. now rewrite (Permutation_length P).
Qed.

Lemma history_insert_adds_one_witness :
  history_insert [] sample_record <> None
  /\ length (history_query
               [{| h_id := 1; h_username := rec_username sample_record;
                   h_date := rec_date sample_record;
                   h_meal := rec_meal sample_record;
                   h_calories := rec_calories sample_record;
                   h_details := rec_details sample_record |}]
               (rec_username sample_record))
     = S (length (history_query [] (rec_username sample_record))).
Proof.
  split; [discriminate|].
  apply (history_insert_adds_one [] _ sample_record).
  vm_compute. reflexivity.
Defined.

(** ** The handler as a whole *)

Lemma valid_text_app : forall a b,
    valid_text (a ++ b) = valid_text a && valid_text b.
Proof. intros a b. apply forallb_app. Qed.

Lemma dec2_valid : forall n, valid_text (dec2 n) = true.
Proof.
  intros n. unfold dec2, valid_text, scalar. cbn [forallb].
  assert (H1 : (n / 10) mod 10 < 10) by (apply N.mod_lt; lia).
  assert (H2 : n mod 10 < 10) by (apply N.mod_lt; lia).
  rewrite !andb_true_iff. repeat split; try reflexivity;
    apply orb_true_iff; left; apply N.ltb_lt; lia.
Qed.

Lemma dec4_valid : forall n, valid_text (dec4 n) = true.
Proof.
  intros n. unfold dec4, valid_text, scalar. cbn [forallb].
  assert (H0 : (n / 1000) mod 10 < 10) by (apply N.mod_lt; lia).
  assert (H1 : (n / 100) mod 10 < 10) by (apply N.mod_lt; lia).
  assert (H2 : (n / 10) mod 10 < 10) by (apply N.mod_lt; lia).
  assert (H3 : n mod 10 < 10) by (apply N.mod_lt; lia).
  rewrite !andb_true_iff. repeat split; try reflexivity;
    apply orb_true_iff; left; apply N.ltb_lt; lia.
Qed.

Lemma dec_year_valid : forall y, valid_text (dec_year y) = true.
Proof.
  intros y. unfold dec_year.
  destruct (N.ltb y 10) eqn:E1.
  - apply N.ltb_lt in E1. unfold valid_text, scalar. cbn [forallb].
    rewrite andb_true_r. apply orb_true_iff. left. apply N.ltb_lt. lia.
  - destruct (N.ltb y 100); [apply dec2_valid|].
    destruct (N.ltb y 1000); [|apply dec4_valid].
    change ((48 + (y / 100) mod 10) :: dec2 y)
      with ([48 + (y / 100) mod 10] ++ dec2 y).
    rewrite valid_text_app, dec2_valid, andb_true_r.
    assert (H : (y / 100) mod 10 < 10) by (apply N.mod_lt; lia).
    unfold valid_text, scalar. cbn [forallb].
    rewrite andb_true_r. apply orb_true_iff. left. apply N.ltb_lt. lia.
Qed.

Lemma dec_year_four : forall y, 1000 <= y -> dec_year y = dec4 y.
Proof.
  intros y H. unfold dec_year.
  rewrite (proj2 (N.ltb_ge y 10)) by lia.
  rewrite (proj2 (N.ltb_ge y 100)) by lia.
  rewrite (proj2 (N.ltb_ge y 1000)) by lia. reflexivity.
Qed.

(** The timestamp can always be stored. *)
Lemma strftime_valid : forall t, valid_text (strftime_dmY_HM t) = true.
Proof.
  intros t. unfold strftime_dmY_HM.
  rewrite !valid_text_app, !dec2_valid, dec_year_valid. reflexivity.
Qed.

(** The first piece of a split: what stands before the first separator. *)
Lemma split_first : forall sep s,
    exists first rest,
      split sep s = first :: rest
      /\ ~ In sep first
      /\ ((rest = [] /\ s = first)
          \/ exists tail, s = first ++ sep :: tail).
Proof.
  intros sep s. induction s as [|c s IH].
  - exists [], []. cbn. repeat split; auto.
  - cbn [split]. destruct (N.eqb c sep) eqn:E.
    + apply N.eqb_eq in E. subst c. exists [], (split sep s).
      split; [reflexivity|]. split; [intros []|]. right. exists s. reflexivity.
    + apply N.eqb_neq in E. destruct IH as (first & rest & -> & Hn & Hs).
      exists (c :: first), rest. split; [reflexivity|]. split.
      * intros [H|H]; [congruence|contradiction].
      * destruct Hs as [[-> ->]|(tail & ->)]; [left; auto|].
        right. exists tail. reflexivity.
Qed.

Lemma first_line_valid : forall s,
    valid_text s = true -> valid_text (hd [] (split LF s)) = true.
Proof.
  intros s V. destruct (split_first LF s) as (first & rest & E & _ & Hs).
  rewrite E. cbn [hd].
  destruct Hs as [[_ ->]|(tail & ->)]; [exact V|].
  rewrite valid_text_app in V. apply andb_true_iff in V. apply V.
Qed.

(** X8.  The record of an analysis is stored exactly when no connection
    holds the database, the username and the analysis text can be encoded as
    UTF-8, [int()] accepts the digits of the calorie figure, the figure fits
    SQLite's 64-bit INTEGER and an id is left; otherwise [extract_calories]
    or the INSERT raises and nothing is stored.  A figure of 2^63 kcal or
    more in the text therefore stops the handler.  What is stored is one new
    row with the figure read. *)
Theorem record_analysis_succeeds_iff :
  forall (U : UCD) (limit : nat) (locked : bool) (tbl : history) (user : pystr)
         (now : datetime) (result : pystr),
    (record_analysis U limit locked tbl user now result <> None
     <-> locked = false
         /\ valid_text user = true /\ valid_text result = true
         /\ (exists cal, extract_calories U limit result = Returns cal
                         /\ (Z.of_N cal <= INT64_MAX)%Z)
         /\ (next_id tbl <= INT64_MAX)%Z)
    /\ (forall tbl',
          record_analysis U limit locked tbl user now result = Some tbl' ->
          exists cal,
            extract_calories U limit result = Returns cal
            /\ tbl' = tbl ++ [{| h_id := next_id tbl;
                                 h_username := user;
                                 h_date := strftime_dmY_HM now;
                                 h_meal := hd [] (split LF result);
                                 h_calories := Z.of_N cal;
                                 h_details := result |}]).
Proof.
  intros U limit locked tbl user now result. split.
  - unfold record_analysis.
    destruct (extract_calories U limit result) as [cal|].
    2:{ split; [congruence|]. intros (_ & _ & _ & (cal & H & _) & _).
        discriminate. }
    destruct locked.
    { split; [congruence|]. intros (H & _). discriminate. }
    unfold history_insert.
    cbn [analysis_of rec_username rec_date rec_meal rec_calories rec_details].
    rewrite !bindable_text_valid, strftime_valid. unfold bindable_int.
    assert (Hmin : Z.leb INT64_MIN (Z.of_N cal) = true).
    { apply Z.leb_le. unfold INT64_MIN. lia. }
    rewrite Hmin. cbn [andb].
    destruct (valid_text user) eqn:Vu; cbn [andb].
    + destruct (valid_text result) eqn:Vr.
      * rewrite (first_line_valid result Vr). cbn [andb]. rewrite andb_true_r.
        destruct (Z.leb (Z.of_N cal) INT64_MAX) eqn:Ec; cbn [andb].
        -- apply Z.leb_le in Ec.
           destruct (Z.leb (next_id tbl) INT64_MAX) eqn:En.
           ++ apply Z.leb_le in En. split; [|discriminate]. intros _.
              repeat split; auto. exists cal. auto.
           ++ apply Z.leb_gt in En. split; [congruence|].
              intros (_ & _ & _ & _ & H). lia.
        -- apply Z.leb_gt in Ec. split; [congruence|].
           intros (_ & _ & _ & (c & Hc & H) & _). injection Hc as <-. lia.
      * rewrite !andb_false_r. cbn [andb].
        split; [congruence|]. intros (_ & _ & H & _). discriminate.
    + split; [congruence|]. intros (_ & H & _). discriminate.
  - intros tbl' H. unfold record_analysis in H.
    destruct (extract_calories U limit result) as [cal|]; [|discriminate].
    destruct locked; [discriminate|].
    apply history_insert_row in H. destruct H as [_ ->].
    exists cal. split; reflexivity.
Qed.

(** X9.  The title stored with an analysis is the text before its first
    newline, or the whole text when it has none; it never holds a newline,
    and it is empty when the text starts with one. *)
Theorem stored_title_first_line :
  forall (user : pystr) (now : datetime) (result : pystr) (calories : N),
    ~ In LF (rec_meal (analysis_of user now result calories))
    /\ (result = rec_meal (analysis_of user now result calories)
        \/ exists tail,
            result = rec_meal (analysis_of user now result calories) ++ LF :: tail)
    /\ (forall tail, result = LF :: tail ->
                     rec_meal (analysis_of user now result calories) = []).
Proof.
  intros user now result calories. cbn [analysis_of rec_meal].
  destruct (split_first LF result) as (first & rest & E & Hn & Hs).
  rewrite E. cbn [hd]. split; [exact Hn|]. split.
  - destruct Hs as [[_ ->]|(tail & ->)]; [now left|right; eauto].
  - intros tail ->. cbn in E. now injection E as <- _.
Qed.

Lemma share_fixed_valid :
  valid_text share_prefix = true /\ valid_text share_middle = true
  /\ valid_text share_suffix = true.
Proof. repeat split. Qed.

Lemma share_link_some : forall user result,
    valid_text user = true -> valid_text result = true ->
    exists link, share_link user result = Some link.
Proof.
  intros user result Vu Vr.
  assert (V : valid_text (share_text user result) = true).
  { rewrite share_text_parts, !valid_text_app, Vu, Vr.
    destruct share_fixed_valid as (-> & -> & ->). reflexivity. }
  destruct (utf8_encode_valid _ V) as (bs & E & _).
  unfold share_link, whatsapp_share, quote. rewrite E. eexists. reflexivity.
Qed.

(** X10.  A click on Analyse Food, as far as the program's own code goes
    (the rendering inside matplotlib and reportlab aside), ends in one of
    three ways.  Either [extract_calories] or the INSERT raises: the table
    is unchanged and nothing is shown.  Or the record is stored and the card
    is shown, and then [int()] raises inside [extract_macros]: the record
    stays, and neither chart, PDF button nor link follows.  Or the record is
    stored and the card, the chart decision, the PDF story and the share
    link are all built.  [whatsapp_share] cannot raise after the record was
    committed: a text that could be stored can be percent-encoded.  The
    second way is taken by a text with 4301 digits of protein. *)
Theorem analyse_food_outcomes :
  forall (U : UCD) (limit : nat) (locked : bool) (tbl : history) (user : pystr)
         (now_insert now_pdf : datetime) (result : pystr),
    ((record_analysis U limit locked tbl user now_insert result = None
      /\ analyse_food U limit locked tbl user now_insert now_pdf result
         = (tbl, StoppedBeforeStore))
     \/ (exists tbl',
            record_analysis U limit locked tbl user now_insert result = Some tbl'
            /\ extract_macros U limit result = Raises
            /\ analyse_food U limit locked tbl user now_insert now_pdf result
               = (tbl', StoppedAfterCard
                          (py "<div class='card'>" ++ result ++ py "</div>")))
     \/ (exists tbl' macros link,
            record_analysis U limit locked tbl user now_insert result = Some tbl'
            /\ extract_macros U limit result = Returns macros
            /\ share_link user result = Some link
            /\ analyse_food U limit locked tbl user now_insert now_pdf result
               = (tbl',
                  Finished (py "<div class='card'>" ++ result ++ py "</div>")
                    {| view_chart := pie_chart macros;
                       view_pdf := generate_pdf now_pdf result;
                       view_link := link |})))
    /\ (exists tbl' card,
           analyse_food latin1 DEFAULT_MAX_STR_DIGITS false [] (py "asha")
             jan_02 jan_02
             (py "Dal: 200 kcal Protein: " ++ too_many_digits
                 ++ py "g Carbs: 30g Fat: 5g")
           = (tbl', StoppedAfterCard card)
           /\ length tbl' = 1%nat).
Proof.
  intros U limit locked tbl user now_insert now_pdf result. split.
  - unfold analyse_food, analysis_chart, result_card.
    destruct (record_analysis U limit locked tbl user now_insert result)
      as [tbl'|] eqn:E; [|left; auto].
    right.
    destruct (stored_text_valid U limit locked tbl tbl' user now_insert result E)
      as [Vu Vr].
    destruct (share_link_some user result Vu Vr) as (link & L).
    destruct (extract_macros U limit result) as [macros|].
    + right. exists tbl', macros, link. rewrite L. auto.
    + left. exists tbl'. auto.
  - eexists. eexists. split; [vm_compute; reflexivity|]. reflexivity.
Qed.

(** ** ReportRenderer: the body, line by line *)

Lemma split_nonempty : forall sep s, split sep s <> [].
Proof.
  intros sep s. destruct (split_first sep s) as (f & r & -> & _). discriminate.
Qed.

Lemma split_app_plain : forall sep a s,
    ~ In sep a ->
    split sep (a ++ s)
    = match split sep s with
      | l :: ls => (a ++ l) :: ls
      | [] => [a]
      end.
Proof.
  intros sep a s. induction a as [|c a IH]; intros Hn.
  - cbn [app]. destruct (split sep s) as [|l ls] eqn:E; [|reflexivity].
    exfalso. exact (split_nonempty sep s E).
  - cbn [app split].
    assert (Hc : N.eqb c sep = false).
    { apply N.eqb_neq. intros ->. apply Hn. now left. }
    rewrite Hc, IH by (intros H; apply Hn; now right).
    destruct (split sep s); reflexivity.
Qed.

Lemma escape_char_no_newline : forall c, c <> LF -> ~ In LF (escape_char c).
Proof.
  intros c Hc. unfold escape_char.
  destruct (N.eqb c 38); [cbn; intuition discriminate|].
  destruct (N.eqb c 60); [cbn; intuition discriminate|].
  destruct (N.eqb c 62); [cbn; intuition discriminate|].
  destruct (N.eqb c 34); [cbn; intuition discriminate|].
  destruct (N.eqb c 39); [cbn; intuition discriminate|].
  intros [H|[]]. congruence.
Qed.

(** Escaping works line by line. *)
Lemma split_escape : forall s,
    split LF (flat_map escape_char s) = map (flat_map escape_char) (split LF s).
Proof.
  induction s as [|c s IH]; [reflexivity|].
  cbn [flat_map split]. destruct (N.eqb c LF) eqn:E.
  - apply N.eqb_eq in E. subst c.
    change (escape_char LF) with [LF]. cbn [app split map flat_map].
    rewrite N.eqb_refl, IH. reflexivity.
  - apply N.eqb_neq in E. rewrite split_app_plain by now apply escape_char_no_newline.
    rewrite IH. destruct (split LF s) as [|l ls] eqn:Es.
    + exfalso. exact (split_nonempty LF s Es).
    + cbn [map flat_map]. reflexivity.
Qed.

Lemma escape_char_blank : forall c,
    forallb isspace (escape_char c) = isspace c.
Proof.
  intros c. unfold escape_char.
  destruct (N.eqb c 38) eqn:E1; [apply N.eqb_eq in E1; subst; reflexivity|].
  destruct (N.eqb c 60) eqn:E2; [apply N.eqb_eq in E2; subst; reflexivity|].
  destruct (N.eqb c 62) eqn:E3; [apply N.eqb_eq in E3; subst; reflexivity|].
  destruct (N.eqb c 34) eqn:E4; [apply N.eqb_eq in E4; subst; reflexivity|].
  destruct (N.eqb c 39) eqn:E5; [apply N.eqb_eq in E5; subst; reflexivity|].
  cbn [forallb]. apply andb_true_r.
Qed.

Lemma escape_blank : forall l,
    is_blank (flat_map escape_char l) = is_blank l.
Proof.
  unfold is_blank. induction l as [|c l IH]; [reflexivity|].
  cbn [flat_map forallb]. now rewrite forallb_app, escape_char_blank, IH.
Qed.

Lemma filter_map_swap : forall (f : pystr -> pystr) (p : pystr -> bool) l,
    (forall x, p (f x) = p x) ->
    filter p (map f l) = map f (filter p l).
Proof.
  intros f p l H. induction l as [|x l IH]; [reflexivity|].
  cbn [map filter]. rewrite H, IH. destruct (p x); reflexivity.
Qed.

(** X11.  Each body paragraph of the report is one non-blank line of the
    text with its stars removed, escaped character by character; the
    paragraphs come in the order of the lines, and neither the escaping nor
    the stripping joins or splits lines. *)
Theorem report_body_lines : forall (now : datetime) (text : pystr),
    body_texts (generate_pdf now text)
    = map (flat_map escape_char)
          (filter (fun l => negb (is_blank l)) (split LF (filter not_star text)))
    /\ length (split LF (clean_text text)) = length (split LF text).
Proof.
  intros now text. rewrite generate_pdf_body, clean_text_filter, filter_escape_commute.
  rewrite split_escape. split.
  - apply filter_map_swap. intros l. now rewrite escape_blank.
  - rewrite length_map. clear now.
    assert (H : forall s,
               length (split LF (filter not_star s)) = length (split LF s)).
    { induction s as [|c s IH]; [reflexivity|].
      cbn [filter]. destruct (not_star c) eqn:Ns.
      - cbn [split]. destruct (N.eqb c LF); cbn [length]; [now rewrite IH|].
        destruct (split LF (filter not_star s)) eqn:E1;
          destruct (split LF s) eqn:E2; cbn [length] in *; congruence.
      - unfold not_star in Ns. apply negb_false_iff, N.eqb_eq in Ns. subst c.
        cbn [split]. change (N.eqb STAR LF) with false. cbv iota.
        rewrite IH. destruct (split LF s) eqn:E2; [|reflexivity].
        exfalso. exact (split_nonempty LF s E2). }
    apply H.
Qed.

Lemma split_blank_lines : forall s,
    forallb isspace s = true ->
    forallb is_blank (split LF s) = true.
Proof.
  induction s as [|c s IH]; intros H; [reflexivity|].
  cbn [forallb] in H. apply andb_true_iff in H. destruct H as [Hc Hs].
  specialize (IH Hs). cbn [split]. destruct (N.eqb c LF).
  - cbn [forallb]. rewrite IH. reflexivity.
  - destruct (split LF s) as [|l ls]; cbn [forallb] in *.
    + unfold is_blank. cbn [forallb]. now rewrite Hc.
    + apply andb_true_iff in IH. destruct IH as [Hl Hls].
      unfold is_blank in *. cbn [forallb]. now rewrite Hc, Hl, Hls.
Qed.

Lemma body_paragraphs_blank : forall lines,
    forallb is_blank lines = true -> body_paragraphs lines = [].
Proof.
  induction lines as [|l lines IH]; intros H; [reflexivity|].
  cbn [forallb] in H. apply andb_true_iff in H. destruct H as [Hl Hs].
  cbn [body_paragraphs]. rewrite strip_blank, Hl. cbn [negb]. now apply IH.
Qed.

(** X12.  A text made only of emphasis stars and white space (newlines
    included) gives the same document as the empty text: title, timestamp
    and footer, and no body paragraph. *)
Theorem report_of_markers_only : forall (now : datetime) (text : pystr),
    forallb (fun c => N.eqb c STAR || isspace c) text = true ->
    generate_pdf now text = generate_pdf now [].
Proof.
  intros now text H. unfold generate_pdf. f_equal. f_equal.
  change (body_paragraphs (split LF (clean_text []))) with (@nil flowable).
  apply body_paragraphs_blank, split_blank_lines.
  rewrite clean_text_filter, filter_escape_commute.
  induction text as [|c text IH]; [reflexivity|].
  cbn [forallb] in H. apply andb_true_iff in H. destruct H as [Hc Ht].
  cbn [filter]. unfold not_star at 1. destruct (N.eqb c STAR) eqn:E; cbn [negb].
  - now apply IH.
  - cbn [flat_map]. rewrite forallb_app, escape_char_blank.
    cbn [orb] in Hc. rewrite Hc. now apply IH.
Qed.

Lemma report_of_markers_only_witness :
  forallb (fun c => N.eqb c STAR || isspace c) (py "** *" ++ [LF] ++ py "  ") = true
  /\ generate_pdf jan_02 (py "** *" ++ [LF] ++ py "  ") = generate_pdf jan_02 [].
Proof.
  split; [reflexivity|].
  apply (report_of_markers_only jan_02 (py "** *" ++ [LF] ++ py "  ")).
  reflexivity.
Defined.

(** ** ShareLinkBuilder: the shape of the link and its one failure *)

Lemma hex_digit_safe : forall d, d < 16 -> quote_safe (hex_digit d) = true.
Proof.
  intros d Hd. unfold hex_digit, quote_safe, between.
  destruct (N.ltb d 10) eqn:E; boolprop.
  - assert (A : N.leb 48 (48 + d) && N.leb (48 + d) 57 = true)
      by (apply andb_true_iff; split; apply N.leb_le; lia).
    rewrite A. now rewrite !orb_true_r.
  - assert (A : N.leb 65 (55 + d) && N.leb (55 + d) 90 = true)
      by (apply andb_true_iff; split; apply N.leb_le; lia).
    rewrite A. reflexivity.
Qed.

Lemma quote_from_bytes_chars : forall bs,
    Forall (fun b => b < 256) bs ->
    forallb quoted_char (quote_from_bytes bs) = true.
Proof.
  induction bs as [|b bs IH]; intros H; [reflexivity|].
  inversion H as [|? ? Hb Hbs]; subst.
  unfold quote_from_bytes. cbn [flat_map]. fold (quote_from_bytes bs).
  rewrite forallb_app, (IH Hbs), andb_true_r. unfold quote_byte.
  destruct (quote_safe b) eqn:Es.
  - cbn [forallb]. unfold quoted_char. now rewrite Es.
  - cbn [forallb]. unfold quoted_char at 1. cbn [orb].
    unfold quoted_char.
    rewrite !hex_digit_safe; [reflexivity| |].
    + apply N.mod_lt. lia.
    + apply N.Div0.div_lt_upper_bound. lia.
Qed.

(** X13.  [whatsapp_share] fails in one case only, a text with a code
    point UTF-8 cannot encode (a lone surrogate); otherwise it returns the
    base followed by a value made only of unreserved characters, "/" and
    "%", so that no character of the message (space, newline, "&", "#",
    non-ASCII) appears raw in the link. *)
Theorem whatsapp_share_shape : forall text : pystr,
    (whatsapp_share text = None <-> valid_text text = false)
    /\ (forall link, whatsapp_share text = Some link ->
          exists v, link = wa_base ++ v /\ forallb quoted_char v = true).
Proof.
  intros text. unfold whatsapp_share, quote.
  destruct (utf8_encode text) as [bs|] eqn:E; cbn [option_map].
  - pose proof (utf8_encode_some_valid text bs E) as V.
    destruct (utf8_encode_valid text V) as (bs' & E' & Hb).
    rewrite E in E'. injection E' as <-. split.
    + split; [discriminate|]. congruence.
    + intros link H. injection H as <-. eexists. split; [reflexivity|].
      now apply quote_from_bytes_chars.
  - split.
    + split; [|reflexivity]. intros _.
      destruct (valid_text text) eqn:V; [|reflexivity].
      destruct (utf8_encode_valid text V) as (bs & E' & _). congruence.
    + discriminate.
Qed.

(** ** The order of the stored timestamps *)

Ltac cmp_cases :=
  repeat match goal with
         | |- context [N.ltb ?a ?b] => destruct (N.ltb_spec a b)
         | |- context [N.eqb ?a ?b] => destruct (N.eqb_spec a b)
         end.

Lemma lex_dec2 : forall a b X Y,
    a < 100 -> b < 100 ->
    lex_ltb (dec2 a ++ X) (dec2 b ++ Y)
    = N.ltb a b || (N.eqb a b && lex_ltb X Y).
Proof.
  intros a b X Y Ha Hb. unfold dec2. cbn [app lex_ltb].
  pose proof (N.div_mod a 10 ltac:(lia)) as Da.
  pose proof (N.div_mod b 10 ltac:(lia)) as Db.
  pose proof (N.mod_lt a 10 ltac:(lia)) as Ra.
  pose proof (N.mod_lt b 10 ltac:(lia)) as Rb.
  assert (Qa : a / 10 < 10) by (apply N.Div0.div_lt_upper_bound; lia).
  assert (Qb : b / 10 < 10) by (apply N.Div0.div_lt_upper_bound; lia).
  rewrite (N.mod_small (a / 10) 10 Qa), (N.mod_small (b / 10) 10 Qb).
  revert Da Db Ra Rb Qa Qb.
  generalize (a / 10) (a mod 10) (b / 10) (b mod 10). intros qa ra qb rb.
  intros Da Db Ra Rb Qa Qb.
  destruct (lex_ltb X Y); cmp_cases; cbn; try reflexivity; lia.
Qed.

Lemma digit_thousands : forall n, (n / 100 / 10) mod 10 = (n / 1000) mod 10.
Proof. intros n. zify; Z.to_euclidean_division_equations; lia. Qed.

Lemma digit_units : forall n, (n mod 100) mod 10 = n mod 10.
Proof. intros n. zify; Z.to_euclidean_division_equations; lia. Qed.

Lemma digit_tens : forall n, ((n mod 100) / 10) mod 10 = (n / 10) mod 10.
Proof. intros n. zify; Z.to_euclidean_division_equations; lia. Qed.

Lemma dec4_dec2 : forall n, dec4 n = dec2 (n / 100) ++ dec2 (n mod 100).
Proof.
  intros n. unfold dec4, dec2. cbn [app].
  now rewrite digit_thousands, digit_units, digit_tens.
Qed.

Lemma lex_dec4 : forall a b X Y,
    a < 10000 -> b < 10000 ->
    lex_ltb (dec4 a ++ X) (dec4 b ++ Y)
    = N.ltb a b || (N.eqb a b && lex_ltb X Y).
Proof.
  intros a b X Y Ha Hb. rewrite !dec4_dec2, <- !app_assoc.
  pose proof (N.div_mod a 100 ltac:(lia)) as Da.
  pose proof (N.div_mod b 100 ltac:(lia)) as Db.
  pose proof (N.mod_lt a 100 ltac:(lia)) as Ra.
  pose proof (N.mod_lt b 100 ltac:(lia)) as Rb.
  assert (Qa : a / 100 < 100) by (apply N.Div0.div_lt_upper_bound; lia).
  assert (Qb : b / 100 < 100) by (apply N.Div0.div_lt_upper_bound; lia).
  rewrite (lex_dec2 (a / 100) (b / 100) _ _ Qa Qb).
  rewrite (lex_dec2 (a mod 100) (b mod 100) _ _ Ra Rb).
  revert Da Db Ra Rb Qa Qb.
  generalize (a / 100) (a mod 100) (b / 100) (b mod 100). intros qa ra qb rb.
  intros Da Db Ra Rb Qa Qb.
  destruct (lex_ltb X Y); cmp_cases; cbn; try reflexivity; lia.
Qed.

Lemma lex_same_head : forall c X Y, lex_ltb (c :: X) (c :: Y) = lex_ltb X Y.
Proof.
  intros c X Y. cbn [lex_ltb]. now rewrite N.ltb_irrefl, N.eqb_refl.
Qed.

Lemma dt_valid_bounds : forall t,
    dt_valid t = true ->
    day t < 100 /\ month t < 100 /\ year t < 10000
    /\ hour t < 100 /\ minute t < 100.
Proof.
  intros t H. unfold dt_valid, between in H.
  assert (D : days_in_month (year t) (month t) <= 31).
  { unfold days_in_month.
    destruct (N.eqb (month t) 2); [destruct (is_leap (year t)); lia|].
    destruct (N.eqb (month t) 4 || N.eqb (month t) 6
              || N.eqb (month t) 9 || N.eqb (month t) 11); lia. }
  boolprop. repeat split; lia.
Qed.

(** X14.  What ORDER BY date sorts by: for any two clock readings of the
    years 1000 to 9999, where the year is written with four digits, the
    stored strings compare as the tuples (day, month, year, hour, minute)
    do, day of the month first.  So within one month of one year the string
    order agrees with the order of the times, and seconds play no part. *)
Theorem stored_order_day_first : forall t1 t2 : datetime,
    dt_valid t1 = true -> dt_valid t2 = true ->
    1000 <= year t1 -> 1000 <= year t2 ->
    lex_ltb (strftime_dmY_HM t1) (strftime_dmY_HM t2)
    = lex_ltb (dmy_key t1) (dmy_key t2)
    /\ (month t1 = month t2 -> year t1 = year t2 ->
        lex_ltb (strftime_dmY_HM t1) (strftime_dmY_HM t2) = true ->
        dt_ltb t1 t2 = true).
Proof.
  intros t1 t2 V1 V2 L1 L2.
  destruct (dt_valid_bounds t1 V1) as (D1 & M1 & Y1 & H1 & I1).
  destruct (dt_valid_bounds t2 V2) as (D2 & M2 & Y2 & H2 & I2).
  assert (E : lex_ltb (strftime_dmY_HM t1) (strftime_dmY_HM t2)
              = lex_ltb (dmy_key t1) (dmy_key t2)).
  { unfold strftime_dmY_HM, dmy_key.
    rewrite (dec_year_four (year t1) L1), (dec_year_four (year t2) L2).
    rewrite lex_dec2 by assumption. cbn [app]. rewrite lex_same_head.
    rewrite lex_dec2 by assumption. rewrite lex_same_head.
    rewrite lex_dec4 by assumption. rewrite lex_same_head.
    rewrite lex_dec2 by assumption. rewrite lex_same_head.
    rewrite <- (app_nil_r (dec2 (minute t1))), <- (app_nil_r (dec2 (minute t2))).
    rewrite lex_dec2 by assumption. reflexivity. }
  split; [exact E|]. intros Em Ey. rewrite E. unfold dmy_key, dt_ltb, dt_key.
  rewrite Em, Ey, !lex_same_head. intros H.
  apply lex_ltb_cons in H. rewrite !lex_same_head in H.
  apply lex_ltb_cons. destruct H as [H|[Hd H]]; [now left|right].
  split; [exact Hd|]. apply lex_ltb_cons in H. apply lex_ltb_cons.
  destruct H as [H|[Hh H]]; [now left|right].
  split; [exact Hh|]. apply lex_ltb_cons in H. apply lex_ltb_cons.
  destruct H as [H|[_ H]]; [now left|discriminate H].
Qed.

Lemma stored_order_day_first_witness :
  dt_valid jan_02 = true /\ dt_valid feb_01 = true
  /\ 1000 <= year jan_02 /\ 1000 <= year feb_01
  /\ lex_ltb (strftime_dmY_HM jan_02) (strftime_dmY_HM feb_01)
     = lex_ltb (dmy_key jan_02) (dmy_key feb_01).
Proof.
  split; [reflexivity|]. split; [reflexivity|].
  split; [cbn; lia|]. split; [cbn; lia|].
  apply (stored_order_day_first jan_02 feb_01);
    [reflexivity|reflexivity|cbn; lia|cbn; lia].
Defined.

(** ** FactExtractor: the values of the macro profile *)

Section FieldFacts.
Variable U : UCD.
Hypothesis Hwf : ucd_wf U.
Hypothesis Hword : ucd_wf_word U.

Lemma lits_match_here : forall label lab re g s,
    ci_eq U label lab ->
    match_here U (map (fun c => One (Lit c)) label ++ re) g (lab ++ s)
    = match_here U re g s.
Proof.
  intros label lab re g s H. induction H as [|p c label lab Hc _ IH].
  - reflexivity.
  - cbn [map app match_here cset_match]. now rewrite Hc.
Qed.

Lemma sep_not_word : forall c,
    N.eqb c 58 || isspace c = true -> cat_match U CatWord c = false.
Proof.
  intros c H. cbn [cat_match]. unfold isalnum.
  destruct (N.ltb c 256) eqn:E.
  - unfold isspace, between in H. unfold between.
    boolprop;
      (rewrite !orb_false_iff; repeat split;
       first [ apply N.eqb_neq; lia
             | apply andb_false_iff; left; apply N.leb_gt; lia
             | apply andb_false_iff; right; apply N.leb_gt; lia ]).
  - apply N.ltb_ge in E. apply orb_true_iff in H. destruct H as [H|H].
    + apply N.eqb_eq in H. lia.
    + apply orb_false_iff. split; [|apply N.eqb_neq; lia].
      destruct (ucd_isalnum U c) eqn:A; [|reflexivity].
      rewrite (Hword c A) in H. discriminate.
Qed.

Lemma decimal_not_sep : forall c,
    isdecimal U c = true -> cset_match U colon_or_space c = false.
Proof.
  intros c H. rewrite colon_or_space_match.
  destruct (N.eqb c 58) eqn:E.
  - apply N.eqb_eq in E. subst c. discriminate H.
  - destruct (isspace c) eqn:S; [|reflexivity].
    rewrite (space_not_decimal U Hwf c S) in H. discriminate.
Qed.

(** At the start of a labeled field the matcher captures its digits. *)
Lemma value_match_here : forall g seps ds post,
    seps <> [] ->
    Forall (fun c => N.eqb c 58 || isspace c = true) seps ->
    ds <> [] -> all_decimal U ds ->
    (forall c post', post = c :: post' -> isdecimal U c = false) ->
    match_here U [Repeat 1 colon_or_space; GroupRepeat 1 (Cat CatDigit)] g
               (seps ++ ds ++ post)
    = Some (Some ds, post).
Proof.
  intros g seps ds post Hs Fs Hd Fd Hp. cbn [match_here].
  apply greedy_longest.
  - eapply Forall_impl; [|exact Fs]. intros c Hc. now rewrite colon_or_space_match.
  - intros c rest' E. destruct ds as [|d ds]; [congruence|].
    cbn [app] in E. injection E as <- _. inversion Fd; subst.
    now apply decimal_not_sep.
  - cbn [app]. now apply nonempty_length.
  - cbn [app]. apply greedy_longest.
    + exact Fd.
    + exact Hp.
    + cbn [app]. now apply nonempty_length.
    + reflexivity.
Qed.

Lemma field_match_here : forall label (suffix : bool) lab suf seps ds post,
    ci_eq U label lab ->
    (if suffix
     then Forall (fun c => cat_match U CatWord c = true) suf
     else suf = []) ->
    seps <> [] ->
    Forall (fun c => N.eqb c 58 || isspace c = true) seps ->
    ds <> [] -> all_decimal U ds ->
    (forall c post', post = c :: post' -> isdecimal U c = false) ->
    match_here U (field_re label suffix) None (lab ++ suf ++ seps ++ ds ++ post)
    = Some (Some ds, post).
Proof.
  intros label suffix lab suf seps ds post Hl Hsuf Hs Fs Hd Fd Hp.
  unfold field_re. rewrite (lits_match_here label lab _ None _ Hl).
  destruct suffix.
  - cbn [app].
    change (match_here U
              (Repeat 0 (Cat CatWord)
                 :: [Repeat 1 colon_or_space; GroupRepeat 1 (Cat CatDigit)])
              None (suf ++ seps ++ ds ++ post))
      with (greedy (cset_match U (Cat CatWord)) 0
                   (fun _ rest =>
                      match_here U [Repeat 1 colon_or_space;
                                    GroupRepeat 1 (Cat CatDigit)] None rest)
                   [] (suf ++ seps ++ ds ++ post)).
    apply greedy_longest.
    + exact Hsuf.
    + intros c rest' E. destruct seps as [|x seps]; [congruence|].
      cbn [app] in E. injection E as <- _. inversion Fs; subst.
      cbn [cset_match]. now apply sep_not_word.
    + apply Nat.le_0_l.
    + now apply value_match_here.
  - subst suf. cbn [app]. now apply value_match_here.
Qed.

Lemma first_field_search : forall label suffix text pre ds,
    first_field U label suffix text pre ds ->
    exists m, re_search U (field_re label suffix) text = Some m
              /\ m_group1 m = Some ds.
Proof.
  intros label suffix text pre ds [Hat Hfirst].
  destruct Hat as (lab & suf & seps & post & -> & Hl & Hsuf & Hs & Fs & Hd & Fd & Hp).
  unfold re_search.
  rewrite (search_from_first U (field_re label suffix) pre
             (lab ++ suf ++ seps ++ ds ++ post) 0 (Some ds) post).
  - eexists. split; reflexivity.
  - intros j Hj. apply not_occurs_none.
    + rewrite length_app. lia.
    + now apply Hfirst.
  - now apply field_match_here.
Qed.
End FieldFacts.

Lemma latin1_wf_word : ucd_wf_word latin1.
Proof. intros c H. discriminate H. Qed.

(** X15.  The values of the macro profile: each is the integer of the
    whole run of digits of the first occurrence of its labeled field (any
    later occurrence is ignored, and the run ends at the first character
    that is not a digit, a decimal point included), read in base ten.  The
    call raises instead exactly when one of the three runs has more than 640
    digits and more than the limit of [int()], the limit not being 0.  The
    two hypotheses on the database are facts of Unicode for the code points
    above U+00FF: digits and word characters are not white space. *)
Theorem extract_macros_values :
  forall (U : UCD) (limit : nat) (text pp dp pc dc pf df : pystr),
    ucd_wf U -> ucd_wf_word U ->
    first_field U (py "Protein") false text pp dp ->
    first_field U (py "Carb") true text pc dc ->
    first_field U (py "Fat") true text pf df ->
    (extract_macros U limit text = Raises
     <-> exists n, In n [length dp; length dc; length df]
                   /\ (0 < limit /\ limit < n /\ 640 < n)%nat)
    /\ (extract_macros U limit text <> Raises ->
        extract_macros U limit text
        = Returns (Some (decimal_value U dp), Some (decimal_value U dc),
                   Some (decimal_value U df)))
    /\ decimal_value U [] = 0
    /\ (forall ds d,
          decimal_value U (ds ++ [d]) = 10 * decimal_value U ds + digit_value U d).
Proof.
  intros U limit text pp dp pc dc pf df Hwf Hword Hp Hc Hf.
  destruct (first_field_search U Hwf Hword _ _ _ _ _ Hp) as (mp & Ep & Gp).
  destruct (first_field_search U Hwf Hword _ _ _ _ _ Hc) as (mc & Ec & Gc).
  destruct (first_field_search U Hwf Hword _ _ _ _ _ Hf) as (mf & Ef & Gf).
  assert (E : extract_macros U limit text
              = match py_int U limit dp with
                | Raises => Raises
                | Returns vp =>
                    match py_int U limit dc with
                    | Raises => Raises
                    | Returns vc =>
                        match py_int U limit df with
                        | Raises => Raises
                        | Returns vf => Returns (Some vp, Some vc, Some vf)
                        end
                    end
                end).
  { unfold extract_macros.
    change protein_re with (field_re (py "Protein") false).
    change carb_re with (field_re (py "Carb") true).
    change fat_re with (field_re (py "Fat") true).
    rewrite Ep, Ec, Ef. unfold group1. now rewrite Gp, Gc, Gf. }
  rewrite E. unfold py_int.
  split; [|split; [|split; [reflexivity|apply decimal_value_snoc]]].
  - destruct (int_refused limit (length dp)) eqn:Rp.
    { apply int_refused_iff in Rp. split; [intros _|reflexivity].
      exists (length dp). split; [now left|exact Rp]. }
    destruct (int_refused limit (length dc)) eqn:Rc.
    { apply int_refused_iff in Rc. split; [intros _|reflexivity].
      exists (length dc). split; [right; now left|exact Rc]. }
    destruct (int_refused limit (length df)) eqn:Rf.
    { apply int_refused_iff in Rf. split; [intros _|reflexivity].
      exists (length df). split; [right; right; now left|exact Rf]. }
    split; [discriminate|]. intros (n & Hn & Hr).
    apply int_refused_iff in Hr.
    destruct Hn as [<-|[<-|[<-|[]]]]; congruence.
  - destruct (int_refused limit (length dp)); [intros H; now contradiction H|].
    destruct (int_refused limit (length dc)); [intros H; now contradiction H|].
    destruct (int_refused limit (length df)); [intros H; now contradiction H|].
    reflexivity.
Qed.

Lemma extract_macros_values_witness :
  ucd_wf latin1 /\ ucd_wf_word latin1
  /\ first_field latin1 (py "Protein") false
       (py "Protein: 30 Carbs: 20 Fat: 10.5") [] (py "30")
  /\ first_field latin1 (py "Carb") true
       (py "Protein: 30 Carbs: 20 Fat: 10.5") (py "Protein: 30 ") (py "20")
  /\ first_field latin1 (py "Fat") true
       (py "Protein: 30 Carbs: 20 Fat: 10.5") (py "Protein: 30 Carbs: 20 ")
       (py "10")
  /\ extract_macros latin1 DEFAULT_MAX_STR_DIGITS
       (py "Protein: 30 Carbs: 20 Fat: 10.5")
     = Returns (Some 30, Some 20, Some 10).
Proof.
  assert (Hp : first_field latin1 (py "Protein") false
                 (py "Protein: 30 Carbs: 20 Fat: 10.5") [] (py "30")).
  { split.
    - exists (py "Protein"), [], (py ": "), (py " Carbs: 20 Fat: 10.5").
      split; [reflexivity|]. split; [repeat constructor|].
      split; [reflexivity|]. split; [discriminate|].
      split; [repeat constructor|]. split; [discriminate|].
      split; [repeat constructor|].
      intros c post' E. injection E as <- _. reflexivity.
    - intros i Hi. inversion Hi. }
  assert (Hc : first_field latin1 (py "Carb") true
                 (py "Protein: 30 Carbs: 20 Fat: 10.5") (py "Protein: 30 ")
                 (py "20")).
  { split.
    - exists (py "Carb"), (py "s"), (py ": "), (py " Fat: 10.5").
      split; [reflexivity|]. split; [repeat constructor|].
      split; [repeat constructor|]. split; [discriminate|].
      split; [repeat constructor|]. split; [discriminate|].
      split; [repeat constructor|].
      intros c post' E. injection E as <- _. reflexivity.
    - apply (no_match_before_spec latin1 (field_re (py "Carb") true)
               (py "Protein: 30 Carbs: 20 Fat: 10.5") 12).
      + vm_compute. lia.
      + vm_compute. reflexivity. }
  assert (Hf : first_field latin1 (py "Fat") true
                 (py "Protein: 30 Carbs: 20 Fat: 10.5")
                 (py "Protein: 30 Carbs: 20 ") (py "10")).
  { split.
    - exists (py "Fat"), [], (py ": "), (py ".5").
      split; [reflexivity|]. split; [repeat constructor|].
      split; [repeat constructor|]. split; [discriminate|].
      split; [repeat constructor|]. split; [discriminate|].
      split; [repeat constructor|].
      intros c post' E. injection E as <- _. reflexivity.
    - apply (no_match_before_spec latin1 (field_re (py "Fat") true)
               (py "Protein: 30 Carbs: 20 Fat: 10.5") 22).
      + vm_compute. lia.
      + vm_compute. reflexivity. }
  split; [exact latin1_wf|]. split; [exact latin1_wf_word|].
  split; [exact Hp|]. split; [exact Hc|]. split; [exact Hf|].
  apply (extract_macros_values latin1 DEFAULT_MAX_STR_DIGITS _ _ _ _ _ _ _
           latin1_wf latin1_wf_word Hp Hc Hf).
  vm_compute. discriminate.
Defined.

(** ** ChartBuilder on the analysis text *)

(** X16.  No chart without the three fields: whenever the handler draws
    the pie, the analysis text holds the Protein, Carb... and Fat... fields,
    the slices are the three extracted values in that order, and they are
    not all zero. *)
Theorem chart_needs_all_fields :
  forall (U : UCD) (limit : nat) (text : pystr) (img : pie),
    analysis_chart U limit text = Returns (Some img) ->
    macros_present U text
    /\ exists p c f,
        extract_macros U limit text = Returns (Some p, Some c, Some f)
        /\ pie_values img = [p; c; f] /\ 0 < p + c + f.
Proof.
  intros U limit text img H. unfold analysis_chart in H.
  destruct (extract_macros_cases U limit text)
    as [(Hp & [E|(p & c & f & E)])|(Hn & E)]; rewrite E in H; cbn in H;
    try discriminate.
  destruct (N.ltb 0 (p + c + f)) eqn:L; [|discriminate].
  injection H as <-. split; [exact Hp|].
  exists p, c, f. apply N.ltb_lt in L. rewrite E. auto.
Qed.

Lemma chart_needs_all_fields_witness :
  exists img,
    analysis_chart latin1 DEFAULT_MAX_STR_DIGITS sample_analysis
    = Returns (Some img)
    /\ macros_present latin1 sample_analysis
    /\ exists p c f,
        extract_macros latin1 DEFAULT_MAX_STR_DIGITS sample_analysis
        = Returns (Some p, Some c, Some f)
        /\ pie_values img = [p; c; f] /\ 0 < p + c + f.
Proof.
  eexists. split; [vm_compute; reflexivity|].
  apply (chart_needs_all_fields latin1 DEFAULT_MAX_STR_DIGITS sample_analysis).
  vm_compute. reflexivity.
Defined.

(** ** ShareLinkBuilder: the message can be read back *)

Lemma utf8_two : forall c,
    128 <= c -> c < 2048 ->
    2 <= c / 64 /\ c / 64 < 32 /\ c mod 64 < 64
    /\ (192 + c / 64 - 192) * 64 + (128 + c mod 64 - 128) = c.
Proof. intros c L H. zify; Z.to_euclidean_division_equations; lia. Qed.

Lemma utf8_three : forall c,
    2048 <= c -> c < 65536 ->
    c / 4096 < 16 /\ (c / 64) mod 64 < 64 /\ c mod 64 < 64
    /\ (224 + c / 4096 - 224) * 4096 + (128 + (c / 64) mod 64 - 128) * 64
       + (128 + c mod 64 - 128) = c.
Proof. intros c L H. zify; Z.to_euclidean_division_equations; lia. Qed.

Lemma utf8_four : forall c,
    65536 <= c -> c < 1114112 ->
    c / 262144 < 8 /\ (c / 4096) mod 64 < 64 /\ (c / 64) mod 64 < 64
    /\ c mod 64 < 64
    /\ (240 + c / 262144 - 240) * 262144 + (128 + (c / 4096) mod 64 - 128) * 4096
       + (128 + (c / 64) mod 64 - 128) * 64 + (128 + c mod 64 - 128) = c.
Proof. intros c L H. zify; Z.to_euclidean_division_equations; lia. Qed.

Lemma ltb_false : forall a b, b <= a -> N.ltb a b = false.
Proof. intros a b H. now apply N.ltb_ge. Qed.

Lemma ltb_true : forall a b, a < b -> N.ltb a b = true.
Proof. intros a b H. now apply N.ltb_lt. Qed.

Lemma utf8_decode_1 : forall b1 r,
    b1 < 128 -> utf8_decode (b1 :: r) = option_map (cons b1) (utf8_decode r).
Proof.
  intros b1 r H. cbn [utf8_decode]. now rewrite (ltb_true b1 128 H).
Qed.

Lemma utf8_decode_2 : forall b1 b2 r,
    128 <= b1 -> b1 < 224 ->
    utf8_decode (b1 :: b2 :: r)
    = option_map (cons ((b1 - 192) * 64 + (b2 - 128))) (utf8_decode r).
Proof.
  intros b1 b2 r L H. cbn [utf8_decode].
  now rewrite (ltb_false b1 128 L), (ltb_true b1 224 H).
Qed.

Lemma utf8_decode_3 : forall b1 b2 b3 r,
    224 <= b1 -> b1 < 240 ->
    utf8_decode (b1 :: b2 :: b3 :: r)
    = option_map (cons ((b1 - 224) * 4096 + (b2 - 128) * 64 + (b3 - 128)))
                 (utf8_decode r).
Proof.
  intros b1 b2 b3 r L H. cbn [utf8_decode].
  rewrite (ltb_false b1 128) by lia.
  now rewrite (ltb_false b1 224 L), (ltb_true b1 240 H).
Qed.

Lemma utf8_decode_4 : forall b1 b2 b3 b4 r,
    240 <= b1 ->
    utf8_decode (b1 :: b2 :: b3 :: b4 :: r)
    = option_map (cons ((b1 - 240) * 262144 + (b2 - 128) * 4096
                        + (b3 - 128) * 64 + (b4 - 128)))
                 (utf8_decode r).
Proof.
  intros b1 b2 b3 b4 r L. cbn [utf8_decode].
  rewrite (ltb_false b1 128) by lia. rewrite (ltb_false b1 224) by lia.
  now rewrite (ltb_false b1 240 L).
Qed.

Lemma utf8_decode_char : forall c bs rest,
    utf8_char c = Some bs ->
    utf8_decode (bs ++ rest) = option_map (cons c) (utf8_decode rest).
Proof.
  intros c bs rest H. unfold utf8_char, between in H.
  destruct (N.ltb c 128) eqn:E1.
  { apply N.ltb_lt in E1. assert (E : bs = [c]) by congruence. subst bs.
    change ([c] ++ rest) with (c :: rest). now apply utf8_decode_1. }
  apply N.ltb_ge in E1.
  destruct (N.ltb c 2048) eqn:E2.
  { apply N.ltb_lt in E2.
    assert (E : bs = [192 + c / 64; 128 + c mod 64]) by congruence. subst bs.
    destruct (utf8_two c E1 E2) as (A & B & C & D).
    change ([192 + c / 64; 128 + c mod 64] ++ rest)
      with ((192 + c / 64) :: (128 + c mod 64) :: rest).
    rewrite utf8_decode_2 by lia. now rewrite D. }
  apply N.ltb_ge in E2.
  destruct (N.leb 55296 c && N.leb c 57343); [discriminate|].
  destruct (N.ltb c 65536) eqn:E4.
  { apply N.ltb_lt in E4.
    assert (E : bs = [224 + c / 4096; 128 + (c / 64) mod 64; 128 + c mod 64])
      by congruence.
    subst bs. destruct (utf8_three c E2 E4) as (A & B & C & D).
    change ([224 + c / 4096; 128 + (c / 64) mod 64; 128 + c mod 64] ++ rest)
      with ((224 + c / 4096) :: (128 + (c / 64) mod 64) :: (128 + c mod 64) :: rest).
    assert (T1 : 224 <= 224 + c / 4096) by apply N.le_add_r.
    assert (T2 : 224 + c / 4096 < 240) by (clear - A; lia).
    rewrite (utf8_decode_3 _ _ _ _ T1 T2). now rewrite D. }
  apply N.ltb_ge in E4.
  destruct (N.ltb c 1114112) eqn:E5; [|discriminate].
  apply N.ltb_lt in E5.
  assert (E : bs = [240 + c / 262144; 128 + (c / 4096) mod 64;
                    128 + (c / 64) mod 64; 128 + c mod 64]) by congruence.
  subst bs. destruct (utf8_four c E4 E5) as (A & B & C & D & F).
  change ([240 + c / 262144; 128 + (c / 4096) mod 64;
           128 + (c / 64) mod 64; 128 + c mod 64] ++ rest)
    with ((240 + c / 262144) :: (128 + (c / 4096) mod 64)
          :: (128 + (c / 64) mod 64) :: (128 + c mod 64) :: rest).
  assert (T1 : 240 <= 240 + c / 262144) by apply N.le_add_r.
  rewrite (utf8_decode_4 _ _ _ _ _ T1). now rewrite F.
Qed.

Lemma utf8_decode_encode : forall s bs,
    utf8_encode s = Some bs -> utf8_decode bs = Some s.
Proof.
  induction s as [|c s IH]; intros bs H; cbn [utf8_encode] in H.
  - now injection H as <-.
  - destruct (utf8_char c) as [bc|] eqn:Ec; [|discriminate].
    destruct (utf8_encode s) as [bs'|] eqn:Es; [|discriminate].
    injection H as <-. rewrite (utf8_decode_char c bc bs' Ec).
    now rewrite (IH bs' eq_refl).
Qed.

Lemma byte_cases : forall P : N -> bool,
    forallb P (map N.of_nat (seq 0 256)) = true ->
    forall b, b < 256 -> P b = true.
Proof.
  intros P H b Hb. rewrite forallb_forall in H. apply H.
  apply in_map_iff. exists (N.to_nat b). split; [apply N2Nat.id|].
  apply in_seq. lia.
Qed.

Lemma quote_safe_unreserved : forall b,
    b < 256 -> (quote_safe b = true <-> In b unreserved_or_slash).
Proof.
  intros b Hb.
  assert (E : Bool.eqb (quote_safe b) (existsb (N.eqb b) unreserved_or_slash) = true).
  { revert b Hb.
    apply (byte_cases (fun b => Bool.eqb (quote_safe b)
                                  (existsb (N.eqb b) unreserved_or_slash))).
    vm_compute. reflexivity. }
  apply eqb_prop in E. rewrite E. rewrite existsb_exists. split.
  - intros (x & Hx & Ex). apply N.eqb_eq in Ex. now subst x.
  - intros H. exists b. split; [exact H|apply N.eqb_refl].
Qed.

Lemma hex_digit_upper : forall d,
    d < 16 -> nth_error hex_upper (N.to_nat d) = Some (hex_digit d).
Proof.
  intros d Hd.
  assert (E : (if N.ltb d 16
               then match nth_error hex_upper (N.to_nat d) with
                    | Some x => N.eqb x (hex_digit d)
                    | None => false
                    end
               else true) = true).
  { apply (byte_cases (fun d => if N.ltb d 16
                                then match nth_error hex_upper (N.to_nat d) with
                                     | Some x => N.eqb x (hex_digit d)
                                     | None => false
                                     end
                                else true)); [vm_compute; reflexivity|lia]. }
  rewrite (proj2 (N.ltb_lt d 16) Hd) in E.
  destruct (nth_error hex_upper (N.to_nat d)) as [x|]; [|discriminate].
  apply N.eqb_eq in E. now subst x.
Qed.

(** What [quote_from_bytes] writes is the percent-encoding of the bytes. *)
Lemma quote_from_bytes_encoded : forall bs,
    Forall (fun b => b < 256) bs -> percent_encoded bs (quote_from_bytes bs).
Proof.
  induction 1 as [|b bs Hb _ IH]; [constructor|].
  unfold quote_from_bytes. cbn [flat_map]. unfold quote_byte at 1.
  destruct (quote_safe b) eqn:E.
  - cbn [app]. apply pe_plain; [now apply quote_safe_unreserved|exact IH].
  - cbn [app]. apply pe_escape with (hi := b / 16) (lo := b mod 16).
    + intros Hin. apply quote_safe_unreserved in Hin; [congruence|exact Hb].
    + apply N.div_mod. lia.
    + apply hex_digit_upper. apply N.Div0.div_lt_upper_bound. lia.
    + apply hex_digit_upper. apply N.mod_lt. lia.
    + exact IH.
Qed.

(** C9.  The link is the fixed base "https://wa.me/?text=" followed by the
    percent-encoding of the whole composed message: the fixed opening, the
    owner name, the full raw text and the fixed closing with the footer URL,
    each encoded in full and in that order.  The value is the
    percent-encoding of the UTF-8 bytes of the message: the letters, digits
    and "-._~/" stand for themselves and every other byte is "%" and its two
    upper-case hexadecimal digits.  Nothing is cut at any length:
    percent-decoding the link's value gives back every byte of the message,
    and reading these bytes as UTF-8 gives back the message. *)
Theorem share_link_whole_message : forall owner raw : pystr,
    valid_text owner = true -> valid_text raw = true ->
    exists qp qo qm qr qs bytes,
      quote share_prefix = Some qp /\ quote owner = Some qo
      /\ quote share_middle = Some qm /\ quote raw = Some qr
      /\ quote share_suffix = Some qs
      /\ share_text owner raw
         = share_prefix ++ owner ++ share_middle ++ raw ++ share_suffix
      /\ utf8_encode (share_text owner raw) = Some bytes
      /\ quote (share_text owner raw) = Some (qp ++ qo ++ qm ++ qr ++ qs)
      /\ share_link owner raw = Some (wa_base ++ qp ++ qo ++ qm ++ qr ++ qs)
      /\ unquote_to_bytes (qp ++ qo ++ qm ++ qr ++ qs) = bytes
      /\ percent_encoded bytes (qp ++ qo ++ qm ++ qr ++ qs)
      /\ utf8_decode bytes = Some (share_text owner raw).
Proof.
  intros owner raw Ho Hr.
  destruct (utf8_encode_valid owner Ho) as (bo & Eo & Hbo).
  destruct (utf8_encode_valid raw Hr) as (br & Er & Hbr).
  destruct (utf8_encode_valid share_prefix eq_refl) as (bp & Ep & Hbp).
  destruct (utf8_encode_valid share_middle eq_refl) as (bm & Em & Hbm).
  destruct (utf8_encode_valid share_suffix eq_refl) as (bs & Es & Hbs).
  exists (quote_from_bytes bp), (quote_from_bytes bo), (quote_from_bytes bm),
    (quote_from_bytes br), (quote_from_bytes bs),
    (bp ++ bo ++ bm ++ br ++ bs).
  assert (Hq : quote (share_text owner raw)
               = Some (quote_from_bytes bp ++ quote_from_bytes bo
                       ++ quote_from_bytes bm ++ quote_from_bytes br
                       ++ quote_from_bytes bs)).
  { rewrite share_text_parts, !quote_app. unfold quote.
    rewrite Ep, Eo, Em, Er, Es. reflexivity. }
  assert (Hu : utf8_encode (share_text owner raw)
               = Some (bp ++ bo ++ bm ++ br ++ bs)).
  { rewrite share_text_parts, !utf8_encode_app, Ep, Eo, Em, Er, Es.
    reflexivity. }
  assert (Hall : Forall (fun b => b < 256) (bp ++ bo ++ bm ++ br ++ bs)).
  { repeat (apply Forall_app; split); assumption. }
  split. { unfold quote. now rewrite Ep. }
  split. { unfold quote. now rewrite Eo. }
  split. { unfold quote. now rewrite Em. }
  split. { unfold quote. now rewrite Er. }
  split. { unfold quote. now rewrite Es. }
  split. { apply share_text_parts. }
  split. { exact Hu. }
  split. { exact Hq. }
  split. { unfold share_link, whatsapp_share. rewrite Hq. reflexivity. }
  split. { unfold quote_from_bytes. rewrite <- !flat_map_app.
           now apply unquote_quote. }
  split. { unfold quote_from_bytes. rewrite <- !flat_map_app.
           now apply quote_from_bytes_encoded. }
  now apply utf8_decode_encode.
Qed.

Lemma share_link_whole_message_witness :
  valid_text (py "asha") = true
  /\ valid_text (py "Salad: 350 kcal") = true
  /\ share_link (py "asha") (py "Salad: 350 kcal")
     = Some (py "https://wa.me/?text=%0ANutriVision%20%E2%80%93%20Nutrition%20Report%0A%0AUser%3A%20asha%0A%0ASalad%3A%20350%20kcal%0A%0ADownload%20full%20PDF%3A%0Ahttps%3A//nutri-app.onrender.com%0A")
  /\ exists qp qo qm qr qs bytes,
      quote share_prefix = Some qp /\ quote (py "asha") = Some qo
      /\ quote share_middle = Some qm /\ quote (py "Salad: 350 kcal") = Some qr
      /\ quote share_suffix = Some qs
      /\ share_text (py "asha") (py "Salad: 350 kcal")
         = share_prefix ++ py "asha" ++ share_middle ++ py "Salad: 350 kcal"
           ++ share_suffix
      /\ utf8_encode (share_text (py "asha") (py "Salad: 350 kcal")) = Some bytes
      /\ quote (share_text (py "asha") (py "Salad: 350 kcal"))
         = Some (qp ++ qo ++ qm ++ qr ++ qs)
      /\ share_link (py "asha") (py "Salad: 350 kcal")
         = Some (wa_base ++ qp ++ qo ++ qm ++ qr ++ qs)
      /\ unquote_to_bytes (qp ++ qo ++ qm ++ qr ++ qs) = bytes
      /\ percent_encoded bytes (qp ++ qo ++ qm ++ qr ++ qs)
      /\ utf8_decode bytes = Some (share_text (py "asha") (py "Salad: 350 kcal")).
Proof.
  split; [reflexivity|]. split; [reflexivity|].
  split; [vm_compute; reflexivity|].
  apply (share_link_whole_message (py "asha") (py "Salad: 350 kcal"));
    reflexivity.
Defined.

(** X17.  Round trip of the share link: percent-decoding the value of
    the link and reading the bytes as UTF-8 gives back the text that was
    shared, whole; so two different messages never get the same link. *)
Theorem whatsapp_share_round_trip : forall text link : pystr,
    whatsapp_share text = Some link ->
    (exists v, link = wa_base ++ v
               /\ utf8_decode (unquote_to_bytes v) = Some text)
    /\ (forall other, whatsapp_share other = Some link -> other = text).
Proof.
  assert (R : forall text link,
             whatsapp_share text = Some link ->
             exists v, link = wa_base ++ v
                       /\ utf8_decode (unquote_to_bytes v) = Some text).
  { intros text link H. unfold whatsapp_share, quote in H.
    destruct (utf8_encode text) as [bs|] eqn:E; [|discriminate].
    cbn [option_map] in H. injection H as <-.
    exists (quote_from_bytes bs). split; [reflexivity|].
    pose proof (utf8_encode_some_valid text bs E) as V.
    destruct (utf8_encode_valid text V) as (bs' & E' & Hb).
    rewrite E in E'. injection E' as <-.
    rewrite (unquote_quote bs Hb). now apply utf8_decode_encode. }
  intros text link H. split; [now apply R|].
  intros other Ho.
  destruct (R text link H) as (v & -> & D).
  destruct (R other _ Ho) as (v' & Ev & D').
  apply app_inv_head in Ev. subst v'. congruence.
Qed.

Lemma whatsapp_share_round_trip_witness :
  whatsapp_share (py "Dal & rice") = Some (py "https://wa.me/?text=Dal%20%26%20rice")
  /\ exists v, py "https://wa.me/?text=Dal%20%26%20rice" = wa_base ++ v
               /\ utf8_decode (unquote_to_bytes v) = Some (py "Dal & rice").
Proof.
  split; [reflexivity|].
  apply (whatsapp_share_round_trip (py "Dal & rice")
           (py "https://wa.me/?text=Dal%20%26%20rice")).
  reflexivity.
Defined.
